(** * tinyraytracer (SDF ray marcher): a shallow embedding of [tinyraytracer.cpp]

    The program computes with IEEE 754 numbers: [float] is binary32 and the
    few double-precision intermediates are binary64.  Both are taken from the
    Standard Library's executable specification [SpecFloat] (round to nearest,
    ties to even), so every definition below can be evaluated on concrete
    inputs.

    The first part embeds the program: primitives, [fresnel], [reflect],
    [refract], [scene_sdf], [ray_marching], [cast_ray] with its shadow test,
    and the tone mapping and the framebuffer index of [render].  Reference
    parameters become values that go in and come out, the two recursive
    functions take a bound on the depth of the call stack, and [powf] is a
    parameter.  The second part proves what the marcher and the shader
    compute: the scene field, the checkerboard fallback, the composite
    colour, the bound on the recursion, the fallback values of total
    reflection and the guards of the square roots, and then further facts
    about the same functions: the range and the order independence of the
    scene field, what a primitive hit reports, shadows, and the rays that
    the shader casts. *)

From Stdlib Require Import ZArith NArith List Bool Lia Permutation.
From Stdlib Require Import Floats.SpecFloat.
Import ListNotations.

Local Open Scope Z_scope.

(** ** binary32, the C++ type [float] *)

Module F32.
Definition prec : Z := 24.
Definition emax : Z := 128.

Definition float : Type := spec_float.

Definition add : float -> float -> float := SFadd prec emax.
Definition sub : float -> float -> float := SFsub prec emax.
Definition mul : float -> float -> float := SFmul prec emax.
Definition div : float -> float -> float := SFdiv prec emax.
Definition sqrtf : float -> float := SFsqrt prec emax.
Definition neg : float -> float := SFopp.
Definition fabsf : float -> float := SFabs.

(** [a < b], [a > b], [a >= b] of C++; every comparison with a NaN is false. *)
Definition ltb : float -> float -> bool := SFltb.
Definition gtb (a b : float) : bool := SFltb b a.
Definition geb (a b : float) : bool := SFleb b a.

(** Conversion of an integer to [float]. *)
Definition of_Z (z : Z) : float := binary_normalize prec emax z 0 false.

(** A decimal literal with an [f] suffix, [num/den] rounded once. *)
Definition lit (num den : Z) : float := div (of_Z num) (of_Z den).

(** Narrowing conversion from a wider format. *)
Definition round (x : spec_float) : float :=
  match x with
  | S754_finite s m e => binary_round prec emax s m e
  | _ => x
  end.

Definition zero : float := of_Z 0.
Definition one : float := of_Z 1.

(** [std::numeric_limits<float>::max()] *)
Definition FLT_MAX : float := SFmax_float prec emax.

(** [std::max(a, b)] is [(a < b) ? b : a], [std::min(a, b)] is
    [(b < a) ? b : a] and [std::clamp(v, lo, hi)] is
    [(v < lo) ? lo : (hi < v) ? hi : v]. *)
Definition max (a b : float) : float := if ltb a b then b else a.
Definition min (a b : float) : float := if ltb b a then b else a.
Definition clamp (v lo hi : float) : float :=
  if ltb v lo then lo else if ltb hi v then hi else v.

Definition is_nan (x : float) : bool :=
  match x with S754_nan => true | _ => false end.
Definition is_finite (x : float) : bool :=
  match x with S754_zero _ | S754_finite _ _ _ => true | _ => false end.
Definition is_zero (x : float) : bool :=
  match x with S754_zero _ => true | _ => false end.

(** Well-formed binary32 data: canonical mantissa and exponent in range. *)
Definition valid (x : float) : bool := valid_binary prec emax x.

(** Conversion of a [float] to [int]: truncation toward zero.  (Outside the
    range of [int] the conversion is undefined in C++; the mathematical
    value is kept.) *)
Definition to_int (x : float) : Z :=
  match x with
  | S754_finite s m e => cond_Zopp s (Z.shiftl (Zpos m) e)
  | _ => 0
  end.
End F32.

(** ** binary64, the C++ type [double] (only for the intermediates the source
    computes in double precision) *)

Module F64.
Definition prec : Z := 53.
Definition emax : Z := 1024.

Definition double : Type := spec_float.

Definition add : double -> double -> double := SFadd prec emax.
Definition mul : double -> double -> double := SFmul prec emax.
Definition div : double -> double -> double := SFdiv prec emax.
Definition of_Z (z : Z) : double := binary_normalize prec emax z 0 false.
Definition lit (num den : Z) : double := div (of_Z num) (of_Z den).

(** Promotion of a [float]; exact, only the representation is re-aligned. *)
Definition of_float (x : F32.float) : double :=
  match x with
  | S754_finite s m e => binary_round prec emax s m e
  | _ => x
  end.

(** [int(x)] of C++: truncation toward zero.  (Outside the range of [int]
    the conversion is undefined in C++; the mathematical value is kept.) *)
Definition to_int (x : double) : Z :=
  match x with
  | S754_finite s m e => cond_Zopp s (Z.shiftl (Zpos m) e)
  | _ => 0
  end.

(** The mathematical floor, for comparison with [to_int]. *)
Definition floor (x : double) : Z :=
  match x with
  | S754_finite s m e => Z.shiftl (cond_Zopp s (Zpos m)) e
  | _ => 0
  end.
End F64.

Declare Scope f32_scope.
Delimit Scope f32_scope with f32.
Infix "+" := F32.add : f32_scope.
Infix "-" := F32.sub : f32_scope.
Infix "*" := F32.mul : f32_scope.
Infix "/" := F32.div : f32_scope.
Notation "- x" := (F32.neg x) : f32_scope.
Infix "<?" := F32.ltb : f32_scope.
Infix ">?" := F32.gtb : f32_scope.
Infix ">=?" := F32.geb : f32_scope.

Local Open Scope f32_scope.

(** ** The float-vector library *)

(** Modelled from the spec: the types [Vec3f] and [Vec4f] of [geometry.h],
    which the source includes but which is not part of it; [a0] to [a3] are
    the components [albedo[0]] to [albedo[3]]. *)
Record Vec3f : Type := mkVec3f { vx : F32.float; vy : F32.float; vz : F32.float }.

Record Vec4f : Type :=
  mkVec4f { a0 : F32.float; a1 : F32.float; a2 : F32.float; a3 : F32.float }.

(** Modelled from the spec: the operations of [geometry.h] (addition,
    subtraction, scaling, dot product, length, normalization).  They work
    component by component in binary32, a sum of three products is taken
    from left to right, a default-constructed vector is zero, and a
    double-precision scalar or component is narrowed to binary32 first. *)
Module Vec.
Definition zero : Vec3f := mkVec3f F32.zero F32.zero F32.zero.
Definition add (a b : Vec3f) : Vec3f :=
  mkVec3f (vx a + vx b) (vy a + vy b) (vz a + vz b).
Definition sub (a b : Vec3f) : Vec3f :=
  mkVec3f (vx a - vx b) (vy a - vy b) (vz a - vz b).
Definition scale (a : Vec3f) (k : F32.float) : Vec3f :=
  mkVec3f (vx a * k) (vy a * k) (vz a * k).
Definition neg (a : Vec3f) : Vec3f := mkVec3f (- vx a) (- vy a) (- vz a).
Definition dot (a b : Vec3f) : F32.float :=
  vx a * vx b + vy a * vy b + vz a * vz b.
Definition norm (a : Vec3f) : F32.float := F32.sqrtf (dot a a).
Definition normalize (a : Vec3f) : Vec3f := scale a (F32.one / norm a).
(** [Vec3f(x, y, z)] written with double-precision literals. *)
Definition of_doubles (x y z : F64.double) : Vec3f :=
  mkVec3f (F32.round x) (F32.round y) (F32.round z).
End Vec.

Infix "+^" := Vec.add (at level 50, left associativity).
Infix "-^" := Vec.sub (at level 50, left associativity).
Infix "*^" := Vec.scale (at level 40, left associativity).
Infix "`*`" := Vec.dot (at level 40, left associativity).

(** ** Constants, lights and materials *)

Definition MAX_DISTANCE : F32.float := F32.of_Z 9999.
Definition EPSILON : F32.float := F32.lit 1 1000.
Definition MAX_MARCHING_STEPS : nat := 128.

Record Light : Type := mkLight { position : Vec3f; intensity : F32.float }.

Record Material : Type := mkMaterial {
  refractive_index : F32.float;
  albedo : Vec4f;
  diffuse_color : Vec3f;
  specular_exponent : F32.float
}.

(** [Material()] *)
Definition default_material : Material :=
  mkMaterial F32.one (mkVec4f F32.one F32.zero F32.zero F32.zero) Vec.zero F32.zero.

(** The assignment [material.diffuse_color = c]. *)
Definition set_diffuse_color (m : Material) (c : Vec3f) : Material :=
  mkMaterial (refractive_index m) (albedo m) c (specular_exponent m).

(** ** SDF primitives *)

(** [sdf_model] is an abstract class whose only implementation is [Sphere]. *)
Inductive sdf_model : Type :=
| Sphere (center : Vec3f) (radius : F32.float) (material : Material).

Definition get_material (m : sdf_model) : Material :=
  match m with Sphere _ _ mat => mat end.

Definition sdf (m : sdf_model) (point : Vec3f) : F32.float :=
  match m with
  | Sphere center radius _ => Vec.norm (point -^ center) - radius
  end.

(** [try_get_normal] returns [false] and leaves [n] alone ([None]), or returns
    [true] and writes [n] ([Some n]).  [abs] is written without [std::] and
    the file has no using-directive, so the call is to [int abs(int)] of the
    C library: the length is converted to [int], and the absolute value of
    that integer is converted back to [float] for the comparison with
    [EPSILON]. *)
Definition try_get_normal (m : sdf_model) (point : Vec3f) : option Vec3f :=
  match m with
  | Sphere center _ _ =>
      let point_to_center := point -^ center in
      if F32.of_Z (Z.abs (F32.to_int (Vec.norm point_to_center))) <? EPSILON
      then None
      else Some (Vec.normalize point_to_center)
  end.

(** [Sphere::ray_intersect]: the radicand handed to [sqrtf], and the method
    itself ([None] is [false]; [Some t0] is [true] with [t0] written).  The
    marcher never calls it. *)
Definition ray_intersect_radicand (center : Vec3f) (radius : F32.float)
    (orig dir : Vec3f) : F32.float :=
  let L := center -^ orig in
  let tca := L `*` dir in
  let d2 := (L `*` L) - tca * tca in
  radius * radius - d2.

Definition ray_intersect (center : Vec3f) (radius : F32.float)
    (orig dir : Vec3f) : option F32.float :=
  let L := center -^ orig in
  let tca := L `*` dir in
  if tca <? F32.zero then None else
  let d2 := (L `*` L) - tca * tca in
  if d2 >? radius * radius then None else
  let thc := F32.sqrtf (ray_intersect_radicand center radius orig dir) in
  let t0 := tca - thc in
  let t1 := tca + thc in
  let t0 := if t0 <? F32.zero then t1 else t0 in
  if t0 <? F32.zero then None else Some t0.

(** ** Fresnel, reflection, refraction *)

Definition fresnel_cosi (I N : Vec3f) : F32.float :=
  F32.clamp (I `*` N) (- F32.one) F32.one.

(** [etai] and [etat] after the conditional [std::swap]. *)
Definition fresnel_etai (I N : Vec3f) (ior : F32.float) : F32.float :=
  if fresnel_cosi I N >? F32.zero then ior else F32.one.
Definition fresnel_etat (I N : Vec3f) (ior : F32.float) : F32.float :=
  if fresnel_cosi I N >? F32.zero then F32.one else ior.

(** The two arguments of [sqrtf] in [fresnel]. *)
Definition fresnel_radicand_sint (I N : Vec3f) : F32.float :=
  let cosi := fresnel_cosi I N in
  F32.max F32.zero (F32.one - cosi * cosi).

Definition fresnel_sint (I N : Vec3f) (ior : F32.float) : F32.float :=
  fresnel_etai I N ior / fresnel_etat I N ior
  * F32.sqrtf (fresnel_radicand_sint I N).

Definition fresnel_radicand_cost (I N : Vec3f) (ior : F32.float) : F32.float :=
  let sint := fresnel_sint I N ior in
  F32.max F32.zero (F32.one - sint * sint).

(** [fresnel(I, N, ior, kr)]; the result is the value written to [kr]. *)
Definition fresnel (I N : Vec3f) (ior : F32.float) : F32.float :=
  let etai := fresnel_etai I N ior in
  let etat := fresnel_etat I N ior in
  let sint := fresnel_sint I N ior in
  if sint >=? F32.one then F32.one
  else
    let cost := F32.sqrtf (fresnel_radicand_cost I N ior) in
    let cosi := F32.fabsf (fresnel_cosi I N) in
    let Rs := (etat * cosi - etai * cost) / (etat * cosi + etai * cost) in
    let Rp := (etai * cosi - etat * cost) / (etai * cosi + etat * cost) in
    (Rs * Rs + Rp * Rp) / F32.of_Z 2.

Definition reflect (I N : Vec3f) : Vec3f :=
  I -^ N *^ F32.of_Z 2 *^ (I `*` N).

Definition refract_cosi (I N : Vec3f) : F32.float :=
  - F32.max (- F32.one) (F32.min F32.one (I `*` N)).

(** The discriminant [k] of [refract] on the branch that does not swap. *)
Definition refract_k (I N : Vec3f) (eta_t eta_i : F32.float) : F32.float :=
  let cosi := refract_cosi I N in
  let eta := eta_i / eta_t in
  F32.one - eta * eta * (F32.one - cosi * cosi).

(** [refract] calls itself with the normal flipped and the indices swapped
    when the ray comes from inside; [fuel] bounds the depth of the call stack
    and [None] stands for a recursion that does not return within it. *)
Fixpoint refract (fuel : nat) (I N : Vec3f) (eta_t eta_i : F32.float)
    : option Vec3f :=
  match fuel with
  | O => None
  | S fuel' =>
      let cosi := refract_cosi I N in
      if cosi <? F32.zero then refract fuel' I (Vec.neg N) eta_i eta_t
      else
        let eta := eta_i / eta_t in
        let k := refract_k I N eta_t eta_i in
        Some (if k <? F32.zero then mkVec3f F32.one F32.zero F32.zero
              else I *^ eta +^ N *^ (eta * cosi - F32.sqrtf k))
  end.

(** ** The scene field *)

(** One iteration of the loop of [scene_sdf] on the pair
    [(min_dist, hit_model)]; [None] is [nullptr]. *)
Definition scene_sdf_step (point : Vec3f)
    (acc : F32.float * option sdf_model) (model : sdf_model)
    : F32.float * option sdf_model :=
  let dist := sdf model point in
  if dist <? F32.zero then acc
  else if fst acc >? dist then (dist, Some model)
  else acc.

Definition scene_sdf (point : Vec3f) (models : list sdf_model)
    : F32.float * option sdf_model :=
  fold_left (scene_sdf_step point) models (MAX_DISTANCE, None).

(** ** The ray marcher *)

(** The three reference parameters [hit], [N] and [material] of
    [ray_marching]: the caller's values go in, the written values come out. *)
Record Out : Type := mkOut { out_hit : Vec3f; out_N : Vec3f; out_material : Material }.

(** How the marching loop ends: by [return true] at a primitive, by [break]
    when no primitive is a candidate, or with its step budget used up.
    (The text printed when [try_get_normal] fails is not modelled; [N] then
    keeps the caller's value.) *)
Inductive march_end : Type :=
| PrimitiveHit (o : Out)
| NoCandidate
| Exhausted.

Fixpoint march_loop (steps : nat) (orig dir : Vec3f) (models : list sdf_model)
    (depth : F32.float) (o : Out) : march_end :=
  match steps with
  | O => Exhausted
  | S steps' =>
      let '(dist, hit_model) := scene_sdf (orig +^ dir *^ depth) models in
      match hit_model with
      | None => NoCandidate
      | Some model =>
          let depth := depth + dist in
          if dist <? EPSILON then
            let hit := orig +^ dir *^ depth in
            let N := match try_get_normal model hit with
                     | Some n => n
                     | None => out_N o
                     end in
            PrimitiveHit (mkOut hit N (get_material model))
          else march_loop steps' orig dir models depth o
      end
  end.

(** [int] is a 32-bit two's complement integer. *)
Definition int_wrap (z : Z) : Z := (z + 2 ^ 31) mod 2 ^ 32 - 2 ^ 31.
Definition int_add (a b : Z) : Z := int_wrap (a + b).

(** [(int(.5*hit.x + 1000) + int(.5*hit.z)) & 1], computed in double. *)
Definition checker_bit (hit : Vec3f) : Z :=
  Z.land
    (int_add
       (F64.to_int (F64.add (F64.mul (F64.lit 1 2) (F64.of_float (vx hit)))
                            (F64.of_Z 1000)))
       (F64.to_int (F64.mul (F64.lit 1 2) (F64.of_float (vz hit)))))
    1.

Definition light_gray : Vec3f :=
  Vec.of_doubles (F64.lit 3 10) (F64.lit 3 10) (F64.lit 3 10).
Definition brown : Vec3f :=
  Vec.of_doubles (F64.lit 3 10) (F64.lit 2 10) (F64.lit 1 10).

Definition tile_color (hit : Vec3f) : Vec3f :=
  if negb (checker_bit hit =? 0)%Z then light_gray else brown.

(** The distance [d] to the plane [y = -4], the point [pt] reached, and the
    conjunction of the two tests that guard the assignments of the
    checkerboard fallback.  ([fabs] promotes its argument to double and the
    comparison is made there; promotion is exact and keeps the order, so the
    tests are written in binary32.) *)
Definition plane_distance (orig dir : Vec3f) : F32.float :=
  - (vy orig + F32.of_Z 4) / vy dir.

Definition plane_point (orig dir : Vec3f) : Vec3f :=
  orig +^ dir *^ plane_distance orig dir.

Definition plane_hit_valid (orig dir : Vec3f) : bool :=
  (F32.fabsf (vy dir) >? EPSILON)
  && ((plane_distance orig dir >? F32.zero)
      && (F32.fabsf (vx (plane_point orig dir)) <? F32.of_Z 10)
      && (vz (plane_point orig dir) <? F32.of_Z (-10))
      && (vz (plane_point orig dir) >? F32.of_Z (-30))).

(** The code after the loop: [checkerboard_dist] and the outputs. *)
Definition checkerboard (orig dir : Vec3f) (o : Out) : F32.float * Out :=
  if F32.fabsf (vy dir) >? EPSILON then
    let d := plane_distance orig dir in
    let pt := plane_point orig dir in
    if (d >? F32.zero) && (F32.fabsf (vx pt) <? F32.of_Z 10)
       && (vz pt <? F32.of_Z (-10)) && (vz pt >? F32.of_Z (-30))
    then (d, mkOut pt (mkVec3f F32.zero F32.one F32.zero)
               (set_diffuse_color (out_material o) (tile_color pt)))
    else (F32.FLT_MAX, o)
  else (F32.FLT_MAX, o).

Definition ray_marching (orig dir : Vec3f) (models : list sdf_model) (o : Out)
    : bool * Out :=
  match march_loop MAX_MARCHING_STEPS orig dir models EPSILON o with
  | PrimitiveHit o' => (true, o')
  | NoCandidate | Exhausted =>
      let '(checkerboard_dist, o') := checkerboard orig dir o in
      (F32.min MAX_DISTANCE checkerboard_dist <? F32.of_Z 1000, o')
  end.

(** ** The recursive ray caster *)

Definition background : Vec3f :=
  Vec.of_doubles (F64.lit 2 10) (F64.lit 7 10) (F64.lit 8 10).

Definition white : Vec3f :=
  Vec.of_doubles (F64.of_Z 1) (F64.of_Z 1) (F64.of_Z 1).

(** The double-precision literal [1e-3] as a scaling factor. *)
Definition eps_offset : F32.float := F32.round (F64.lit 1 1000).

(** [Vec3f point, N; Material material;] *)
Definition fresh_out : Out := mkOut Vec.zero Vec.zero default_material.

(** [size_t] is a 64-bit unsigned integer. *)
Definition size_t_succ (depth : N) : N := ((depth + 1) mod 2 ^ 64)%N.

(** The value of the [return] expression at the end of [cast_ray]. *)
Definition composite (material : Material)
    (diffuse_light_intensity specular_light_intensity : F32.float)
    (reflect_color refract_color : Vec3f) : Vec3f :=
  diffuse_color material *^ diffuse_light_intensity *^ a0 (albedo material)
  +^ white *^ specular_light_intensity *^ a1 (albedo material)
  +^ reflect_color *^ a2 (albedo material)
  +^ refract_color *^ a3 (albedo material).

Definition offset_origin (point N dir : Vec3f) (eps : F32.float) : Vec3f :=
  if dir `*` N <? F32.zero then point -^ N *^ eps else point +^ N *^ eps.

Notation "x <- e ;; k" :=
  (match e with Some x => k | None => None end)
  (at level 61, e at next level, right associativity).

Section Shader.

(** [powf] of the C library, which the language standard does not pin down
    bit for bit. *)
Variable powf : F32.float -> F32.float -> F32.float.

(** One iteration of the loop over the lights on the pair
    [(diffuse_light_intensity, specular_light_intensity)]. *)
Definition light_step (models : list sdf_model) (point N dir : Vec3f)
    (material : Material) (acc : F32.float * F32.float) (l : Light)
    : F32.float * F32.float :=
  let light_dir := Vec.normalize (position l -^ point) in
  let light_distance := Vec.norm (position l -^ point) in
  let shadow_orig := offset_origin point N light_dir eps_offset in
  let '(shadowed, s) := ray_marching shadow_orig light_dir models fresh_out in
  if shadowed && (Vec.norm (out_hit s -^ shadow_orig) <? light_distance)
  then acc
  else
    (fst acc + intensity l * F32.max F32.zero (light_dir `*` N),
     snd acc
     + powf (F32.max F32.zero
               (Vec.neg (reflect (Vec.neg light_dir) N) `*` dir))
            (specular_exponent material)
       * intensity l).

Definition lighting (models : list sdf_model) (lights : list Light)
    (point N dir : Vec3f) (material : Material) : F32.float * F32.float :=
  fold_left (light_step models point N dir material) lights
            (F32.zero, F32.zero).

(** [fuel] bounds the depth of the call stack below this invocation
    (calls of [cast_ray] and of [refract]); [None] stands for a call that
    does not return within it. *)
Fixpoint cast_ray (fuel : nat) (orig dir : Vec3f) (models : list sdf_model)
    (lights : list Light) (depth : N) : option Vec3f :=
  match fuel with
  | O => None
  | S fuel' =>
      if (4 <? depth)%N then Some background else
      let '(found, o) := ray_marching orig dir models fresh_out in
      if negb found then Some background else
      let point := out_hit o in
      let N := out_N o in
      let material := out_material o in
      let kr := fresnel dir N (refractive_index material) in
      refract_color <-
        (if kr <? F32.one then
           r <- refract fuel' dir N (refractive_index material) F32.one ;;
           let refract_dir := Vec.normalize r in
           let refract_orig := offset_origin point N refract_dir EPSILON in
           cast_ray fuel' refract_orig refract_dir models lights
                    (size_t_succ depth)
         else Some Vec.zero) ;;
      let reflect_dir := Vec.normalize (reflect dir N) in
      let reflect_orig := offset_origin point N reflect_dir eps_offset in
      reflect_color <-
        cast_ray fuel' reflect_orig reflect_dir models lights
                 (size_t_succ depth) ;;
      let '(diffuse_light_intensity, specular_light_intensity) :=
        lighting models lights point N dir material in
      Some (composite material diffuse_light_intensity
                      specular_light_intensity reflect_color refract_color)
  end.

End Shader.

(** The [depth] arguments of all invocations of [cast_ray] that one call
    gives rise to, itself first, in the order in which they are entered (the
    refracted ray before the reflected one).  The lights play no part: shadow
    rays go to [ray_marching], not to [cast_ray]. *)
Fixpoint cast_ray_calls (fuel : nat) (orig dir : Vec3f)
    (models : list sdf_model) (depth : N) : option (list N) :=
  match fuel with
  | O => None
  | S fuel' =>
      if (4 <? depth)%N then Some [depth] else
      let '(found, o) := ray_marching orig dir models fresh_out in
      if negb found then Some [depth] else
      let point := out_hit o in
      let N := out_N o in
      let material := out_material o in
      let kr := fresnel dir N (refractive_index material) in
      refract_calls <-
        (if kr <? F32.one then
           r <- refract fuel' dir N (refractive_index material) F32.one ;;
           let refract_dir := Vec.normalize r in
           let refract_orig := offset_origin point N refract_dir EPSILON in
           cast_ray_calls fuel' refract_orig refract_dir models
                          (size_t_succ depth)
         else Some []) ;;
      let reflect_dir := Vec.normalize (reflect dir N) in
      let reflect_orig := offset_origin point N reflect_dir eps_offset in
      reflect_calls <-
        cast_ray_calls fuel' reflect_orig reflect_dir models
                       (size_t_succ depth) ;;
      Some (depth :: refract_calls ++ reflect_calls)
  end.

(** ** The arguments handed to [sqrtf] *)

(** The arguments of the calls of [sqrtf] that an execution of [fresnel],
    of [refract] and of [Sphere::ray_intersect] performs, in order. *)
Definition fresnel_sqrt_args (I N : Vec3f) (ior : F32.float)
    : list F32.float :=
  if fresnel_sint I N ior >=? F32.one
  then [fresnel_radicand_sint I N]
  else [fresnel_radicand_sint I N; fresnel_radicand_cost I N ior].

Fixpoint refract_sqrt_args (fuel : nat) (I N : Vec3f)
    (eta_t eta_i : F32.float) : list F32.float :=
  match fuel with
  | O => []
  | S fuel' =>
      if refract_cosi I N <? F32.zero
      then refract_sqrt_args fuel' I (Vec.neg N) eta_i eta_t
      else if refract_k I N eta_t eta_i <? F32.zero then []
           else [refract_k I N eta_t eta_i]
  end.

Definition ray_intersect_sqrt_args (center : Vec3f) (radius : F32.float)
    (orig dir : Vec3f) : list F32.float :=
  let L := center -^ orig in
  let tca := L `*` dir in
  if tca <? F32.zero then [] else
  let d2 := (L `*` L) - tca * tca in
  if d2 >? radius * radius then []
  else [ray_intersect_radicand center radius orig dir].

(** ** Vocabulary of the statements *)

Definition not_negative (x : F32.float) : Prop := (x <? F32.zero) = false.

(** The sign bit of an infinity or of a nonzero number is clear (zeros and
    NaN pass). *)
Definition sign_clear (x : F32.float) : bool :=
  match x with
  | S754_infinity s | S754_finite s _ _ => negb s
  | _ => true
  end.

(** Two binary32 data that denote the same number: identical, or two zeros
    (of either sign). *)
Definition same_num (x y : F32.float) : Prop :=
  x = y \/ (F32.is_zero x = true /\ F32.is_zero y = true).

Definition vec_same (a b : Vec3f) : Prop :=
  same_num (vx a) (vx b) /\ same_num (vy a) (vy b) /\ same_num (vz a) (vz b).

Definition vec_finite (v : Vec3f) : bool :=
  F32.is_finite (vx v) && F32.is_finite (vy v) && F32.is_finite (vz v).

Definition vec_of_Z (x y z : Z) : Vec3f :=
  mkVec3f (F32.of_Z x) (F32.of_Z y) (F32.of_Z z).

(** A primitive is a candidate at [point] when its distance is not negative
    and lies below [MAX_DISTANCE]. *)
Definition candidate (point : Vec3f) (m : sdf_model) : bool :=
  negb (sdf m point <? F32.zero) && (sdf m point <? MAX_DISTANCE).

(** What [scene_sdf] has established about the primitives [seen] so far: the
    result is the least candidate distance with a primitive that has it, or
    the sentinel when there is no candidate. *)
Definition scene_sdf_inv (point : Vec3f) (seen : list sdf_model)
    (r : F32.float * option sdf_model) : Prop :=
  match snd r with
  | Some m =>
      In m seen /\ fst r = sdf m point /\ candidate point m = true
      /\ forall m', In m' seen -> candidate point m' = true ->
                    (sdf m' point <? fst r) = false
  | None =>
      fst r = MAX_DISTANCE
      /\ forall m', In m' seen -> candidate point m' = false
  end.

(** The sum whose parity selects the tile, with the truncations the code
    performs. *)
Definition truncated_sum (hit : Vec3f) : Z :=
  F64.to_int (F64.add (F64.mul (F64.lit 1 2) (F64.of_float (vx hit)))
                      (F64.of_Z 1000))
  + F64.to_int (F64.mul (F64.lit 1 2) (F64.of_float (vz hit))).

(** ** The specification's wording, for comparison *)

(** The scene field as the specification words it: every primitive with a
    nonnegative distance qualifies, the result is the least such distance
    with a primitive that has it, and the sentinel is returned only when no
    primitive qualifies. *)
Definition nonnegative_min_spec (point : Vec3f) (models : list sdf_model)
    (r : F32.float * option sdf_model) : Prop :=
  match snd r with
  | Some m =>
      In m models /\ fst r = sdf m point /\ (sdf m point >=? F32.zero) = true
      /\ forall m', In m' models -> (sdf m' point >=? F32.zero) = true ->
                    (sdf m' point <? fst r) = false
  | None =>
      fst r = MAX_DISTANCE
      /\ forall m', In m' models -> (sdf m' point >=? F32.zero) = false
  end.

(** The tile colour as the specification words it, with the floor of each
    term. *)
Definition floor_rule_color (hit : Vec3f) : Vec3f :=
  if Z.odd
       (F64.floor (F64.add (F64.mul (F64.lit 1 2) (F64.of_float (vx hit)))
                           (F64.of_Z 1000))
        + F64.floor (F64.mul (F64.lit 1 2) (F64.of_float (vz hit))))
  then light_gray else brown.

(** ** Concrete scenes and rays *)

(** A stand-in for [powf] that is exact on whole-number exponents. *)
Fixpoint pow_nat (x : F32.float) (n : nat) : F32.float :=
  match n with
  | O => F32.one
  | S n' => x * pow_nat x n'
  end.

Definition powf_whole (x e : F32.float) : F32.float :=
  pow_nat x (Z.to_nat (F64.to_int e)).

(** [Material mirror(0.0, Vec4f(0.0, 10.0, 0.8, 0.0), Vec3f(1.0, 1.0, 1.0), 1425.)]
    and [Light(Vec3f(-20, 20, 20), 1.5)] of [main]. *)
Definition mirror : Material :=
  mkMaterial (F32.round (F64.of_Z 0))
    (mkVec4f (F32.round (F64.of_Z 0)) (F32.round (F64.of_Z 10))
             (F32.round (F64.lit 8 10)) (F32.round (F64.of_Z 0)))
    (Vec.of_doubles (F64.of_Z 1) (F64.of_Z 1) (F64.of_Z 1))
    (F32.round (F64.of_Z 1425)).

Definition first_light : Light :=
  mkLight (vec_of_Z (-20) 20 20) (F32.round (F64.lit 15 10)).

(** A mirror sphere met head-on by the ray from the origin along
    [(0.6, 0, -0.8)]. *)
Definition head_on_sphere : sdf_model :=
  Sphere (vec_of_Z 6 0 (-8)) (F32.of_Z 4) mirror.
Definition head_on_dir : Vec3f := Vec.normalize (vec_of_Z 3 0 (-4)).

(** A unit sphere 20000 away from the origin. *)
Definition far_sphere : sdf_model :=
  Sphere (vec_of_Z 0 0 (-20000)) F32.one default_material.

(** A ray that grazes a sphere: the marcher creeps past it and uses up its
    128 steps, then reaches the checkerboard. *)
Definition grazed_sphere : sdf_model :=
  Sphere (vec_of_Z 0 (-1) (-10)) (F32.of_Z 2) default_material.
Definition grazing_dir : Vec3f :=
  Vec.normalize (mkVec3f (F32.lit 3615 1000) (F32.of_Z (-4)) (F32.of_Z (-20))).


(** ** Further definitions *)

(** The test of the loop over the lights that makes it [continue]: the
    shadow ray from the offset origin toward the light meets something
    nearer than the light. *)
Definition in_shadow (models : list sdf_model) (point N : Vec3f) (l : Light)
    : bool :=
  let light_dir := Vec.normalize (position l -^ point) in
  let light_distance := Vec.norm (position l -^ point) in
  let shadow_orig := offset_origin point N light_dir eps_offset in
  let '(shadowed, s) := ray_marching shadow_orig light_dir models fresh_out in
  shadowed && (Vec.norm (out_hit s -^ shadow_orig) <? light_distance).

(** The output stage of [render]: the largest channel of a pixel, which
    decides whether the pixel is rescaled ([max > 1]), and the value
    [std::max(0.f, std::min(1.f, x))] that is multiplied by 255 and
    written. *)
Definition channel_max (c : Vec3f) : F32.float :=
  F32.max (vx c) (F32.max (vy c) (vz c)).

Definition clamp_unit (x : F32.float) : F32.float :=
  F32.max F32.zero (F32.min F32.one x).

(** The image size of [render] and the framebuffer slot
    [framebuffer[i + j*width]] that its loop writes for column [i] of row
    [j] ([size_t] arithmetic). *)
Definition width : N := 1024.
Definition height : N := 768.
Definition pixel_index (i j : N) : N := ((i + j * width) mod 2 ^ 64)%N.

(** What [scene_sdf] has established about which primitive it keeps: the
    kept one stands at some place of the list, every candidate before it is
    strictly farther and no candidate after it is nearer. *)
Definition first_nearest (point : Vec3f) (seen : list sdf_model)
    (r : F32.float * option sdf_model) : Prop :=
  match snd r with
  | Some m =>
      exists before after,
        seen = before ++ m :: after
        /\ fst r = sdf m point
        /\ (forall m', In m' before -> candidate point m' = true ->
                       (fst r <? sdf m' point) = true)
        /\ (forall m', In m' after -> candidate point m' = true ->
                       (sdf m' point <? fst r) = false)
  | None => True
  end.


(** ** The output stage of [render] *)

Section ToneMap.

(** The operator of [geometry.h] that [c * (1. / max)] calls: a [Vec3f]
    times a [double]. *)
Variable scale_by_double : Vec3f -> F64.double -> Vec3f.

(** [if (max > 1) c = c * (1. / max);] where [c] refers to the pixel in the
    framebuffer; [1. / max] is a division in double precision. *)
Definition tone_scale (c : Vec3f) : Vec3f :=
  let max := channel_max c in
  if max >? F32.one
  then scale_by_double c (F64.div (F64.of_Z 1) (F64.of_float max))
  else c.

End ToneMap.

(** Modelled from the spec: the two ways in which the operator of
    [geometry.h] can multiply a [float] channel by a [double]: with the
    scalar narrowed to binary32 first, as the operations of [Vec] do, or
    with the product taken in double precision and narrowed afterwards. *)
Definition scale_narrow (c : Vec3f) (k : F64.double) : Vec3f :=
  c *^ F32.round k.

Definition scale_wide (c : Vec3f) (k : F64.double) : Vec3f :=
  mkVec3f (F32.round (F64.mul (F64.of_float (vx c)) k))
          (F32.round (F64.mul (F64.of_float (vy c)) k))
          (F32.round (F64.mul (F64.of_float (vz c)) k)).

(** [(char)(255 * std::max(0.f, std::min(1.f, x)))] as the byte that reaches
    the file: the product is taken in binary32 and truncated; a [char] holds
    eight bits, so the byte is the truncated value modulo 256 (for a signed
    [char] the values above 127 are outside its range). *)
Definition quantize (x : F32.float) : Z :=
  Z.modulo (F32.to_int (F32.of_Z 255 * clamp_unit x)) 256.

(** The three bytes written for a pixel. *)
Definition output_bytes (scale_by_double : Vec3f -> F64.double -> Vec3f)
    (c : Vec3f) : Z * Z * Z :=
  let c' := tone_scale scale_by_double c in
  (quantize (vx c'), quantize (vy c'), quantize (vz c')).

(** Identity of two binary32 data, as a test. *)
Definition same_data (x y : F32.float) : bool :=
  match x, y with
  | S754_zero s, S754_zero s' | S754_infinity s, S754_infinity s' =>
      Bool.eqb s s'
  | S754_nan, S754_nan => true
  | S754_finite s m e, S754_finite s' m' e' =>
      Bool.eqb s s' && Pos.eqb m m' && Z.eqb e e'
  | _, _ => false
  end.

(** Whether a channel that holds the maximum [2^k] is scaled to exactly 1,
    under both readings of the operator. *)
Definition pow2_scaled_to_one (k : Z) : bool :=
  let m := F32.of_Z (2 ^ k) in
  let c := mkVec3f m F32.zero F32.zero in
  let r := F64.div (F64.of_Z 1) (F64.of_float m) in
  same_data (vx (scale_narrow c r)) F32.one
  && same_data (vx (scale_wide c r)) F32.one.

(** ** The specification's wording of the tone mapping, for comparison *)

(** The exact product of two binary32 numbers as a mantissa and a binary
    exponent, and the equality of two such products. *)
Definition exact_mul (a b : F32.float) : option (Z * Z) :=
  match a, b with
  | S754_finite sa ma ea, S754_finite sb mb eb =>
      Some (cond_Zopp (xorb sa sb) (Zpos (ma * mb)), (ea + eb)%Z)
  | S754_zero _, (S754_zero _ | S754_finite _ _ _)
  | S754_finite _ _ _, S754_zero _ => Some (0%Z, 0%Z)
  | _, _ => None
  end.

Definition dyadic_eqb (p q : Z * Z) : bool :=
  let e := Z.min (snd p) (snd q) in
  (fst p * 2 ^ (snd p - e) =? fst q * 2 ^ (snd q - e))%Z.

(** "The ratios between channels are unchanged": [a : b] is [a' : b'], that
    is, [a * b'] and [b * a'] are the same number, without rounding. *)
Definition same_ratio (a b a' b' : F32.float) : bool :=
  match exact_mul a b', exact_mul b a' with
  | Some p, Some q => dyadic_eqb p q
  | _, _ => false
  end.

(** ** Further example data *)

(** A pixel whose largest channel is 41. *)
Definition pixel_41 : Vec3f := vec_of_Z 41 1 0.


(** * Properties *)

(** ** Order facts of binary32 comparison *)

Ltac order_cases :=
  repeat match goal with
         | |- context [Pos.compare_cont Eq ?a ?b] =>
             change (Pos.compare_cont Eq a b) with (Pos.compare a b)
         | H : context [Pos.compare_cont Eq ?a ?b] |- _ =>
             change (Pos.compare_cont Eq a b) with (Pos.compare a b) in H
         end;
  repeat match goal with
         | |- context [Z.compare ?a ?b] => destruct (Z.compare_spec a b); subst
         | |- context [Pos.compare ?a ?b] => destruct (Pos.compare_spec a b); subst
         | H : context [Z.compare ?a ?b] |- _ => destruct (Z.compare_spec a b); subst
         | H : context [Pos.compare ?a ?b] |- _ => destruct (Pos.compare_spec a b); subst
         end;
  simpl in *; try discriminate; try reflexivity; try lia.

Lemma ltb_irrefl (x : F32.float) : (x <? x) = false.
Proof.
  unfold F32.ltb, SFltb, SFcompare.
  destruct x as [s|s| |s m e]; try destruct s; try reflexivity; order_cases.
Qed.

Lemma ltb_trans (x y z : F32.float) :
  (x <? y) = true -> (y <? z) = true -> (x <? z) = true.
Proof.
  unfold F32.ltb, SFltb, SFcompare.
  destruct x as [[]|[]| |[] m1 e1]; destruct y as [[]|[]| |[] m2 e2];
    try discriminate; destruct z as [[]|[]| |[] m3 e3];
    try discriminate; try reflexivity; intros H1 H2; order_cases.
Qed.

Lemma ltb_asym (x y : F32.float) : (x <? y) = true -> (y <? x) = false.
Proof.
  intros H. destruct (y <? x) eqn:E; [|reflexivity].
  rewrite <- (ltb_irrefl x). symmetry. eapply ltb_trans; eassumption.
Qed.

(** Away from NaN two numbers are ordered, identical, or both zero. *)
Lemma ltb_total (x y : F32.float) :
  F32.is_nan x = false -> F32.is_nan y = false ->
  (x <? y) = true \/ (y <? x) = true \/ x = y
  \/ (F32.is_zero x = true /\ F32.is_zero y = true).
Proof.
  unfold F32.ltb, SFltb, SFcompare, F32.is_nan, F32.is_zero.
  destruct x as [[]|[]| |[] m1 e1]; destruct y as [[]|[]| |[] m2 e2];
    try discriminate; intros _ _; auto; order_cases; auto.
Qed.

Lemma gtb_ltb (a b : F32.float) : (a >? b) = (b <? a).
Proof. reflexivity. Qed.

(** ** The scene field *)

Lemma scene_sdf_snoc (point : Vec3f) (models : list sdf_model) (m : sdf_model) :
  scene_sdf point (models ++ [m])
  = scene_sdf_step point (scene_sdf point models) m.
Proof. unfold scene_sdf. rewrite fold_left_app. reflexivity. Qed.

Lemma scene_sdf_step_inv (point : Vec3f) (seen : list sdf_model)
    (r : F32.float * option sdf_model) (m : sdf_model) :
  scene_sdf_inv point seen r ->
  scene_sdf_inv point (seen ++ [m]) (scene_sdf_step point r m).
Proof.
  destruct r as [d hm]. unfold scene_sdf_inv, scene_sdf_step, candidate.
  cbn [fst snd]. rewrite gtb_ltb. intros Inv.
  destruct (sdf m point <? F32.zero) eqn:Hneg; cbn [fst snd].
  - (* skipped: negative distance *)
    destruct hm as [h|].
    + destruct Inv as (Hin & Hd & Hc & Hmin). repeat split; auto.
      * apply in_or_app; auto.
      * intros m' [Hm'|[<-|[]]]%in_app_or Hc'; auto.
        rewrite Hneg in Hc'. discriminate.
    + destruct Inv as (Hd & Hnone). split; auto.
      intros m' [Hm'|[<-|[]]]%in_app_or; auto. rewrite Hneg. reflexivity.
  - destruct (sdf m point <? d) eqn:Hlt; cbn [fst snd].
    + (* a new minimum *)
      assert (Hmax : (sdf m point <? MAX_DISTANCE) = true).
      { destruct hm as [h|].
        - destruct Inv as (_ & Hd & Hc & _). subst d.
          apply andb_prop in Hc as [_ Hc]. eapply ltb_trans; eassumption.
        - destruct Inv as (-> & _). exact Hlt. }
      repeat split.
      * apply in_or_app; right; left; reflexivity.
      * rewrite Hneg, Hmax. reflexivity.
      * intros m' [Hm'|[<-|[]]]%in_app_or Hc'; [|apply ltb_irrefl].
        destruct (sdf m' point <? sdf m point) eqn:E; [|reflexivity].
        assert (Hd' : (sdf m' point <? d) = true) by (eapply ltb_trans; eassumption).
        destruct hm as [h|].
        -- destruct Inv as (_ & _ & _ & Hmin). rewrite (Hmin m' Hm' Hc') in Hd'.
           discriminate.
        -- destruct Inv as (-> & Hnone). rewrite (Hnone m' Hm') in Hc'. discriminate.
    + (* not below the current minimum *)
      destruct hm as [h|].
      * destruct Inv as (Hin & Hd & Hc & Hmin). repeat split; auto.
        -- apply in_or_app; auto.
        -- intros m' [Hm'|[<-|[]]]%in_app_or Hc'; auto.
      * destruct Inv as (-> & Hnone). split; auto.
        intros m' [Hm'|[<-|[]]]%in_app_or; auto.
        rewrite Hneg, Hlt. reflexivity.
Qed.

Lemma scene_sdf_correct (point : Vec3f) (models : list sdf_model) :
  scene_sdf_inv point models (scene_sdf point models).
Proof.
  induction models as [|m models IH] using rev_ind.
  - cbn. split; [reflexivity|]. intros m' [].
  - rewrite scene_sdf_snoc. apply scene_sdf_step_inv. exact IH.
Qed.

(** Primitives with a negative distance play no part in the result. *)
Lemma scene_sdf_fold_skips_negative (point : Vec3f) (models : list sdf_model)
    (acc : F32.float * option sdf_model) :
  fold_left (scene_sdf_step point) models acc
  = fold_left (scene_sdf_step point)
      (filter (fun m => negb (sdf m point <? F32.zero)) models) acc.
Proof.
  revert acc. induction models as [|m models IH]; intros acc; [reflexivity|].
  cbn [filter fold_left].
  destruct (sdf m point <? F32.zero) eqn:Hneg; cbn [negb].
  - unfold scene_sdf_step at 2. rewrite Hneg. apply IH.
  - cbn [fold_left]. apply IH.
Qed.

Lemma sub_self (x : F32.float) :
  F32.is_finite x = true -> x - x = F32.zero.
Proof.
  destruct x as [[]|[]| |s m e]; try discriminate; intros _; try reflexivity.
  unfold F32.sub, SFsub. rewrite Z.sub_diag. reflexivity.
Qed.

Lemma zero_sub_pos (r : F32.float) :
  (F32.zero <? r) = true -> F32.zero - r = - r /\ (- r <? F32.zero) = true.
Proof.
  destruct r as [[]|[]| |[] m e]; try discriminate; intros _; split; reflexivity.
Qed.

(** At its own centre a sphere reports minus its radius. *)
Lemma sphere_sdf_at_center (center : Vec3f) (radius : F32.float) (mat : Material) :
  vec_finite center = true -> (F32.zero <? radius) = true ->
  sdf (Sphere center radius mat) center = - radius
  /\ (sdf (Sphere center radius mat) center <? F32.zero) = true.
Proof.
  intros Hfin Hr. unfold vec_finite in Hfin.
  apply andb_prop in Hfin as [Hfin Hz]. apply andb_prop in Hfin as [Hx Hy].
  assert (Hsdf : sdf (Sphere center radius mat) center = F32.zero - radius).
  { cbn [sdf]. unfold Vec.sub. rewrite !sub_self by assumption. reflexivity. }
  rewrite Hsdf. destruct (zero_sub_pos radius Hr) as [-> Hlt]. auto.
Qed.

(** C3 (as amended).  For every query point and every ordered primitive
    list, [scene_sdf] leaves out every primitive whose distance at the point
    is negative and returns the least distance among the distances that are
    not negative and lie below [MAX_DISTANCE], together with a primitive of
    the list that has this distance; when no primitive has such a distance
    it returns [MAX_DISTANCE] and no hit model.  A sphere with finite centre
    [C] and positive radius [r] has distance [-r] at [C] and is left out
    there. *)
Theorem scene_sdf_least_candidate (point : Vec3f) (models : list sdf_model) :
  scene_sdf point models
  = scene_sdf point (filter (fun m => negb (sdf m point <? F32.zero)) models)
  /\ match scene_sdf point models with
     | (d, Some m) =>
         In m models /\ d = sdf m point
         /\ (d <? F32.zero) = false /\ (d <? MAX_DISTANCE) = true
         /\ forall m', In m' models -> (sdf m' point <? F32.zero) = false ->
                       (sdf m' point <? d) = false
     | (d, None) =>
         d = MAX_DISTANCE
         /\ forall m', In m' models ->
                       (sdf m' point <? F32.zero) = true
                       \/ (sdf m' point <? MAX_DISTANCE) = false
     end
  /\ forall center radius mat before after,
       vec_finite center = true -> (F32.zero <? radius) = true ->
       sdf (Sphere center radius mat) center = - radius
       /\ scene_sdf center (before ++ Sphere center radius mat :: after)
          = scene_sdf center (before ++ after).
Proof.
  split; [apply scene_sdf_fold_skips_negative|]. split.
  - pose proof (scene_sdf_correct point models) as Inv.
    unfold scene_sdf_inv, candidate in Inv.
    destruct (scene_sdf point models) as [d [m|]]; cbn [fst snd] in Inv.
    + destruct Inv as (Hin & Hd & Hc & Hmin).
      apply andb_prop in Hc as [Hneg Hmax]. apply negb_true_iff in Hneg.
      rewrite <- Hd in Hneg, Hmax. repeat split; auto.
      intros m' Hin' Hneg'.
      destruct (sdf m' point <? MAX_DISTANCE) eqn:Hmax'.
      * apply Hmin; [exact Hin'|]. rewrite Hneg', Hmax'. reflexivity.
      * destruct (sdf m' point <? d) eqn:E; [|reflexivity].
        rewrite (ltb_trans _ _ _ E Hmax) in Hmax'. discriminate.
    + destruct Inv as (Hd & Hnone). split; [exact Hd|].
      intros m' Hin'. specialize (Hnone m' Hin').
      destruct (sdf m' point <? F32.zero); [left; reflexivity|right].
      exact Hnone.
  - intros center radius mat before after Hfin Hr.
    destruct (sphere_sdf_at_center center radius mat Hfin Hr) as [Hsdf Hneg].
    split; [exact Hsdf|].
    unfold scene_sdf. rewrite !fold_left_app. cbn [fold_left].
    unfold scene_sdf_step at 2. rewrite Hneg. reflexivity.
Qed.

Lemma scene_sdf_least_candidate_witness :
  sdf (Sphere (vec_of_Z 1 2 3) (F32.of_Z 2) default_material) (vec_of_Z 1 2 3)
  = F32.of_Z (-2)
  /\ scene_sdf (vec_of_Z 1 2 3)
       [far_sphere; Sphere (vec_of_Z 1 2 3) (F32.of_Z 2) default_material]
     = scene_sdf (vec_of_Z 1 2 3) [far_sphere].
Proof.
  exact (proj2 (proj2 (scene_sdf_least_candidate Vec.zero []))
           (vec_of_Z 1 2 3) (F32.of_Z 2) default_material [far_sphere] []
           eq_refl eq_refl).
Defined.

(** C3 (as stated) fails: a sphere 19999 away from the query point has a
    nonnegative distance, yet [scene_sdf] returns the sentinel and no hit
    model, because the running minimum starts at [MAX_DISTANCE = 9999]. *)
Lemma scene_sdf_far_sphere_not_reported :
  sdf far_sphere Vec.zero = F32.of_Z 19999
  /\ scene_sdf Vec.zero [far_sphere] = (MAX_DISTANCE, None)
  /\ ~ nonnegative_min_spec Vec.zero [far_sphere]
         (scene_sdf Vec.zero [far_sphere]).
Proof.
  split; [vm_compute; reflexivity|]. split; [vm_compute; reflexivity|].
  intros H.
  assert (E : scene_sdf Vec.zero [far_sphere] = (MAX_DISTANCE, None))
    by (vm_compute; reflexivity).
  rewrite E in H. destruct H as [_ H].
  specialize (H far_sphere (or_introl eq_refl)). vm_compute in H. discriminate.
Qed.

(** ** Sign symmetry of binary32 arithmetic *)

Lemma binary_round_aux_negb (s : bool) (m e : Z) (l : location) :
  binary_round_aux F32.prec F32.emax (negb s) m e l
  = - binary_round_aux F32.prec F32.emax s m e l.
Proof.
  unfold binary_round_aux.
  destruct (shr_fexp F32.prec F32.emax m e l) as [mrs' e'].
  destruct (shr_fexp F32.prec F32.emax _ e' loc_Exact) as [mrs'' e''].
  destruct (shr_m mrs''); [reflexivity| |reflexivity].
  destruct (e'' <=? F32.emax - F32.prec)%Z; reflexivity.
Qed.

Lemma binary_round_negb (s : bool) (m : positive) (e : Z) :
  binary_round F32.prec F32.emax (negb s) m e
  = - binary_round F32.prec F32.emax s m e.
Proof.
  unfold binary_round. destruct (shl_align _ _ _) as [mz ez].
  apply binary_round_aux_negb.
Qed.

Lemma mul_neg_r (a b : F32.float) : a * (- b) = - (a * b).
Proof.
  destruct a as [sa|sa| |sa ma ea]; destruct b as [sb|sb| |sb mb eb];
    try reflexivity; cbn [F32.neg SFopp F32.mul SFmul];
    try (destruct sa, sb; reflexivity).
  replace (xorb sa (negb sb)) with (negb (xorb sa sb))
    by (destruct sa, sb; reflexivity).
  apply binary_round_aux_negb.
Qed.

Lemma same_num_trans (x y z : F32.float) :
  same_num x y -> same_num y z -> same_num x z.
Proof.
  intros [->|[Hx Hy]] [->|[Hy' Hz]]; unfold same_num; auto.
Qed.

Lemma cond_Zopp_negb (s : bool) (z : Z) :
  cond_Zopp (negb s) z = (- cond_Zopp s z)%Z.
Proof. destruct s; cbn; lia. Qed.

Lemma binary_normalize_opp (z e : Z) :
  same_num (binary_normalize F32.prec F32.emax (- z) e false)
           (- binary_normalize F32.prec F32.emax z e false).
Proof.
  destruct z as [|p|p]; cbn [Z.opp binary_normalize].
  - right. split; reflexivity.
  - left. apply (binary_round_negb false).
  - left. rewrite (binary_round_negb false). generalize (binary_round F32.prec F32.emax false p e).
    intros [[]|[]| |[] m' e']; reflexivity.
Qed.

Lemma add_neg_neg (a b : F32.float) : same_num ((- a) + (- b)) (- (a + b)).
Proof.
  destruct a as [sa|sa| |sa ma ea]; destruct b as [sb|sb| |sb mb eb];
    try (left; reflexivity);
    try (destruct sa, sb; (left; reflexivity) || (right; split; reflexivity)).
  cbn [F32.neg SFopp F32.add SFadd].
  rewrite !cond_Zopp_negb, <- Z.opp_add_distr.
  apply binary_normalize_opp.
Qed.

Lemma add_same_num_l (a a' c : F32.float) :
  same_num a a' -> same_num (a + c) (a' + c).
Proof.
  intros [->|[Ha Ha']]; [left; reflexivity|].
  destruct a as [sa| | |]; try discriminate.
  destruct a' as [sa'| | |]; try discriminate.
  destruct c as [sc|sc| |sc mc ec]; try (left; reflexivity).
  destruct sa, sa', sc; (left; reflexivity) || (right; split; reflexivity).
Qed.

Lemma dot_neg_r (I N : Vec3f) : same_num (I `*` Vec.neg N) (- (I `*` N)).
Proof.
  unfold Vec.dot, Vec.neg. cbn [vx vy vz]. rewrite !mul_neg_r.
  eapply same_num_trans; [|apply add_neg_neg].
  apply add_same_num_l, add_neg_neg.
Qed.

Lemma same_num_ltb_r (x y c : F32.float) : same_num x y -> (c <? x) = (c <? y).
Proof.
  intros [->|[Hx Hy]]; [reflexivity|].
  destruct x; try discriminate. destruct y; try discriminate.
  destruct c as [|[]| |[] ? ?]; reflexivity.
Qed.

Lemma neg_ltb_zero (x : F32.float) : (- x <? F32.zero) = (F32.zero <? x).
Proof. destruct x as [[]|[]| |[] ? ?]; reflexivity. Qed.

Lemma zero_ltb_neg (x : F32.float) : (F32.zero <? - x) = (x <? F32.zero).
Proof. destruct x as [[]|[]| |[] ? ?]; reflexivity. Qed.

(** ** [refract] returns *)

(** Away from NaN the swap test [cosi < 0] of [refract] is the test that the
    dot product is positive. *)
Lemma refract_cosi_neg (I N : Vec3f) :
  F32.is_nan (I `*` N) = false ->
  (refract_cosi I N <? F32.zero) = (F32.zero <? I `*` N).
Proof.
  unfold refract_cosi. generalize (I `*` N). intros d Hnan.
  rewrite neg_ltb_zero. unfold F32.max, F32.min.
  destruct (d <? F32.one) eqn:H1.
  - destruct (- F32.one <? d) eqn:H2; [reflexivity|].
    destruct (F32.zero <? d) eqn:H0; [|reflexivity].
    rewrite (ltb_trans (- F32.one) F32.zero d eq_refl H0) in H2. discriminate.
  - change (- F32.one <? F32.one) with true. cbv iota.
    change (F32.zero <? F32.one) with true. symmetry.
    destruct (ltb_total d F32.one Hnan eq_refl) as [H|[H|[->|[_ H]]]].
    + rewrite H in H1. discriminate.
    + exact (ltb_trans F32.zero F32.one d eq_refl H).
    + reflexivity.
    + discriminate.
Qed.

Lemma is_nan_neg (x : F32.float) : F32.is_nan (- x) = F32.is_nan x.
Proof. destruct x; reflexivity. Qed.

Lemma same_num_is_nan (x y : F32.float) :
  same_num x y -> F32.is_nan x = F32.is_nan y.
Proof.
  intros [->|[Hx Hy]]; [reflexivity|].
  destruct x; try discriminate. destruct y; try discriminate. reflexivity.
Qed.

(** With a dot product that is a number, [refract] swaps at most once. *)
Lemma refract_returns (fuel : nat) (I N : Vec3f) (eta_t eta_i : F32.float) :
  F32.is_nan (I `*` N) = false ->
  exists r, refract (S (S fuel)) I N eta_t eta_i = Some r.
Proof.
  intros Hnan. cbn [refract].
  rewrite (refract_cosi_neg I N Hnan).
  destruct (F32.zero <? I `*` N) eqn:Hpos; [|eexists; reflexivity].
  assert (Hnan' : F32.is_nan (I `*` Vec.neg N) = false).
  { rewrite (same_num_is_nan _ _ (dot_neg_r I N)), is_nan_neg. exact Hnan. }
  rewrite (refract_cosi_neg I (Vec.neg N) Hnan').
  rewrite (same_num_ltb_r _ _ F32.zero (dot_neg_r I N)), zero_ltb_neg.
  rewrite (ltb_asym _ _ Hpos). eexists; reflexivity.
Qed.

(** ** [fresnel] on a dot product that is not a number *)

Lemma mul_nan_r (x : F32.float) : x * S754_nan = S754_nan.
Proof. destruct x; reflexivity. Qed.

Lemma times_zero_not_ge_one (q : F32.float) :
  (q * F32.zero >=? F32.one) = false.
Proof. destruct q as [[]|[]| |[] ? ?]; reflexivity. Qed.

Lemma fresnel_nan (I N : Vec3f) (ior : F32.float) :
  F32.is_nan (I `*` N) = true -> fresnel I N ior = S754_nan.
Proof.
  intros Hnan.
  assert (Hcosi : fresnel_cosi I N = S754_nan).
  { unfold fresnel_cosi. destruct (I `*` N); try discriminate. reflexivity. }
  assert (Hrad : F32.sqrtf (fresnel_radicand_sint I N) = F32.zero).
  { unfold fresnel_radicand_sint. rewrite Hcosi. reflexivity. }
  unfold fresnel, fresnel_sint. rewrite Hrad, times_zero_not_ge_one, Hcosi.
  cbn [F32.fabsf SFabs]. rewrite !mul_nan_r. reflexivity.
Qed.

(** Refraction is only attempted ([kr < 1]) on a dot product that is a
    number, and then [refract] returns. *)
Lemma refract_returns_when_called (fuel : nat) (I N : Vec3f) (ior : F32.float) :
  (fresnel I N ior <? F32.one) = true ->
  exists r, refract (S (S fuel)) I N ior F32.one = Some r.
Proof.
  intros Hkr. apply refract_returns.
  destruct (F32.is_nan (I `*` N)) eqn:Hnan; [|reflexivity].
  rewrite (fresnel_nan I N ior Hnan) in Hkr. discriminate.
Qed.

(** ** The recursion of [cast_ray] *)

Lemma refract_fuel_mono (fuel : nat) (I N : Vec3f) (eta_t eta_i : F32.float)
    (r : Vec3f) :
  refract fuel I N eta_t eta_i = Some r ->
  refract (S fuel) I N eta_t eta_i = Some r.
Proof.
  revert N eta_t eta_i. induction fuel as [|fuel IH]; intros N eta_t eta_i;
    [discriminate|].
  intros H. cbn [refract] in H.
  change (refract (S (S fuel)) I N eta_t eta_i)
    with (if refract_cosi I N <? F32.zero
          then refract (S fuel) I (Vec.neg N) eta_i eta_t
          else Some (if refract_k I N eta_t eta_i <? F32.zero
                     then mkVec3f F32.one F32.zero F32.zero
                     else I *^ (eta_i / eta_t)
                          +^ N *^ (eta_i / eta_t * refract_cosi I N
                                   - F32.sqrtf (refract_k I N eta_t eta_i)))).
  destruct (refract_cosi I N <? F32.zero); [apply IH|]; exact H.
Qed.

Lemma size_t_succ_small (depth : N) :
  (depth <= 4)%N -> size_t_succ depth = (depth + 1)%N.
Proof.
  intros H. unfold size_t_succ. apply N.mod_small.
  apply N.lt_le_trans with (m := 6%N); [lia|]. vm_compute. discriminate.
Qed.

Section ShaderFacts.

Variable powf : F32.float -> F32.float -> F32.float.

(** The body of [cast_ray] at a hit that is shaded. *)
Lemma cast_ray_shaded (fuel : nat) (orig dir : Vec3f)
    (models : list sdf_model) (lights : list Light) (depth : N) (o : Out) :
  (depth <= 4)%N ->
  ray_marching orig dir models fresh_out = (true, o) ->
  cast_ray powf (S fuel) orig dir models lights depth
  = (refract_color <-
       (if fresnel dir (out_N o) (refractive_index (out_material o))
           <? F32.one
        then
          r <- refract fuel dir (out_N o)
                 (refractive_index (out_material o)) F32.one ;;
          cast_ray powf fuel
            (offset_origin (out_hit o) (out_N o) (Vec.normalize r) EPSILON)
            (Vec.normalize r) models lights (depth + 1)%N
        else Some Vec.zero) ;;
     reflect_color <-
       cast_ray powf fuel
         (offset_origin (out_hit o) (out_N o)
            (Vec.normalize (reflect dir (out_N o))) eps_offset)
         (Vec.normalize (reflect dir (out_N o))) models lights
         (depth + 1)%N ;;
     Some (composite (out_material o)
             (fst (lighting powf models lights (out_hit o) (out_N o) dir
                     (out_material o)))
             (snd (lighting powf models lights (out_hit o) (out_N o) dir
                     (out_material o)))
             reflect_color refract_color)).
Proof.
  intros Hdepth Hhit. cbn [cast_ray].
  replace (4 <? depth)%N with false by (symmetry; apply N.ltb_ge; exact Hdepth).
  rewrite Hhit. cbn [negb]. rewrite (size_t_succ_small depth Hdepth).
  destruct (lighting powf models lights (out_hit o) (out_N o) dir
              (out_material o)) as [d s].
  reflexivity.
Qed.

Lemma cast_ray_background (fuel : nat) (orig dir : Vec3f)
    (models : list sdf_model) (lights : list Light) (depth : N) :
  (4 < depth)%N \/ fst (ray_marching orig dir models fresh_out) = false ->
  cast_ray powf (S fuel) orig dir models lights depth = Some background.
Proof.
  intros H. cbn [cast_ray].
  destruct (4 <? depth)%N eqn:Hd; [reflexivity|].
  destruct H as [H|H]; [apply N.ltb_lt in H; congruence|].
  destruct (ray_marching orig dir models fresh_out) as [found o].
  cbn [fst] in H. subst found. reflexivity.
Qed.

Lemma cast_ray_fuel_mono (fuel : nat) :
  forall orig dir models lights depth c,
    cast_ray powf fuel orig dir models lights depth = Some c ->
    cast_ray powf (S fuel) orig dir models lights depth = Some c.
Proof.
  induction fuel as [|fuel IH]; intros orig dir models lights depth c H;
    [discriminate|].
  destruct (4 <? depth)%N eqn:Hd.
  { rewrite cast_ray_background in H by (left; apply N.ltb_lt; exact Hd).
    rewrite cast_ray_background by (left; apply N.ltb_lt; exact Hd).
    exact H. }
  apply N.ltb_ge in Hd.
  destruct (ray_marching orig dir models fresh_out) as [[] o] eqn:Hhit.
  2:{ rewrite cast_ray_background in H by (right; rewrite Hhit; reflexivity).
      rewrite cast_ray_background by (right; rewrite Hhit; reflexivity).
      exact H. }
  rewrite (cast_ray_shaded _ _ _ _ _ _ o Hd Hhit) in H.
  rewrite (cast_ray_shaded _ _ _ _ _ _ o Hd Hhit).
  destruct (fresnel dir (out_N o) (refractive_index (out_material o))
            <? F32.one).
  - destruct (refract fuel dir (out_N o) _ F32.one) as [r|] eqn:Hr;
      [|discriminate].
    rewrite (refract_fuel_mono _ _ _ _ _ _ Hr).
    destruct (cast_ray powf fuel (offset_origin _ _ (Vec.normalize r) _) _ _ _ _)
      as [refract_color|] eqn:Hc1; [|discriminate].
    rewrite (IH _ _ _ _ _ _ Hc1).
    destruct (cast_ray powf fuel (offset_origin _ _ (Vec.normalize (reflect _ _)) _) _ _ _ _)
      as [reflect_color|] eqn:Hc2; [|discriminate].
    rewrite (IH _ _ _ _ _ _ Hc2). exact H.
  - destruct (cast_ray powf fuel (offset_origin _ _ (Vec.normalize (reflect _ _)) _) _ _ _ _)
      as [reflect_color|] eqn:Hc2; [|discriminate].
    rewrite (IH _ _ _ _ _ _ Hc2). exact H.
Qed.

Lemma cast_ray_fuel_le (f f' : nat) orig dir models lights depth c :
  (f <= f')%nat ->
  cast_ray powf f orig dir models lights depth = Some c ->
  cast_ray powf f' orig dir models lights depth = Some c.
Proof.
  induction 1 as [|f' _ IH]; [auto|]. intros H.
  apply cast_ray_fuel_mono; auto.
Qed.

(** [cast_ray] returns: a call stack of depth [7 - depth] is enough. *)
Lemma cast_ray_returns_at (k : nat) :
  forall fuel orig dir models lights depth,
    (5 - N.to_nat depth <= k)%nat -> (k + 2 <= fuel)%nat ->
    exists c, cast_ray powf fuel orig dir models lights depth = Some c.
Proof.
  induction k as [|k IH]; intros fuel orig dir models lights depth Hk Hfuel.
  - destruct fuel as [|fuel]; [lia|]. exists background.
    apply cast_ray_background. left. lia.
  - destruct fuel as [|fuel]; [lia|].
    destruct (4 <? depth)%N eqn:Hd.
    { exists background. apply cast_ray_background. left.
      apply N.ltb_lt; exact Hd. }
    apply N.ltb_ge in Hd.
    destruct (ray_marching orig dir models fresh_out) as [[] o] eqn:Hhit.
    2:{ exists background. apply cast_ray_background. right.
        rewrite Hhit; reflexivity. }
    rewrite (cast_ray_shaded _ _ _ _ _ _ o Hd Hhit).
    assert (Hsub : forall orig' dir',
               exists c, cast_ray powf fuel orig' dir' models lights
                                  (depth + 1)%N = Some c).
    { intros orig' dir'. apply IH; lia. }
    destruct (fresnel dir (out_N o) (refractive_index (out_material o))
              <? F32.one) eqn:Hkr.
    + destruct fuel as [|[|fuel]]; try lia.
      destruct (refract_returns_when_called fuel _ _ _ Hkr) as [r ->].
      destruct (Hsub (offset_origin (out_hit o) (out_N o) (Vec.normalize r) EPSILON)
                     (Vec.normalize r)) as [c1 ->].
      destruct (Hsub (offset_origin (out_hit o) (out_N o)
                        (Vec.normalize (reflect dir (out_N o))) eps_offset)
                     (Vec.normalize (reflect dir (out_N o)))) as [c2 ->].
      eexists; reflexivity.
    + destruct (Hsub (offset_origin (out_hit o) (out_N o)
                        (Vec.normalize (reflect dir (out_N o))) eps_offset)
                     (Vec.normalize (reflect dir (out_N o)))) as [c2 ->].
      eexists; reflexivity.
Qed.

Lemma cast_ray_returns (fuel : nat) orig dir models lights depth :
  (7 <= fuel)%nat ->
  exists c, cast_ray powf fuel orig dir models lights depth = Some c.
Proof.
  intros H. apply (cast_ray_returns_at 5); lia.
Qed.

End ShaderFacts.

(** ** The checkerboard fallback of the ray marcher *)

Lemma checkerboard_eq (orig dir : Vec3f) (o : Out) :
  checkerboard orig dir o
  = if plane_hit_valid orig dir
    then (plane_distance orig dir,
          mkOut (plane_point orig dir) (mkVec3f F32.zero F32.one F32.zero)
                (set_diffuse_color (out_material o)
                   (tile_color (plane_point orig dir))))
    else (F32.FLT_MAX, o).
Proof.
  unfold checkerboard, plane_hit_valid.
  destruct (F32.fabsf (vy dir) >? EPSILON); [|reflexivity].
  cbn [andb]. destruct (_ && _ && _ && _); reflexivity.
Qed.

Lemma ray_marching_fallback (orig dir : Vec3f) (models : list sdf_model)
    (o : Out) :
  march_loop MAX_MARCHING_STEPS orig dir models EPSILON o = Exhausted
  \/ march_loop MAX_MARCHING_STEPS orig dir models EPSILON o = NoCandidate ->
  ray_marching orig dir models o
  = if plane_hit_valid orig dir
    then (F32.min MAX_DISTANCE (plane_distance orig dir) <? F32.of_Z 1000,
          mkOut (plane_point orig dir) (mkVec3f F32.zero F32.one F32.zero)
                (set_diffuse_color (out_material o)
                   (tile_color (plane_point orig dir))))
    else (false, o).
Proof.
  intros H. unfold ray_marching.
  assert (E : match march_loop MAX_MARCHING_STEPS orig dir models EPSILON o with
              | PrimitiveHit o' => (true, o')
              | _ => let '(cd, o') := checkerboard orig dir o in
                     (F32.min MAX_DISTANCE cd <? F32.of_Z 1000, o')
              end
              = let '(cd, o') := checkerboard orig dir o in
                (F32.min MAX_DISTANCE cd <? F32.of_Z 1000, o')).
  { destruct H as [-> | ->]; reflexivity. }
  etransitivity; [exact E|]. rewrite checkerboard_eq.
  destruct (plane_hit_valid orig dir); reflexivity.
Qed.

(** C6.  When the marching loop ends without a primitive hit (its 128 steps
    used up, or left because no primitive is a candidate), [ray_marching]
    reports a hit exactly when [|dir.y| > EPSILON], the plane distance
    [t = -(orig.y + 4) / dir.y] is positive, the plane point has [|x| < 10]
    and [-30 < z < -10], and [min(MAX_DISTANCE, t) < 1000]; without a valid
    plane hit it reports a miss, [MAX_DISTANCE] itself not being below 1000. *)
Theorem ray_marching_plane_hit_iff (orig dir : Vec3f)
    (models : list sdf_model) (o : Out) :
  march_loop MAX_MARCHING_STEPS orig dir models EPSILON o = Exhausted
  \/ march_loop MAX_MARCHING_STEPS orig dir models EPSILON o = NoCandidate ->
  (fst (ray_marching orig dir models o) = true
   <-> (F32.fabsf (vy dir) >? EPSILON) = true
       /\ (plane_distance orig dir >? F32.zero) = true
       /\ (F32.fabsf (vx (plane_point orig dir)) <? F32.of_Z 10) = true
       /\ (vz (plane_point orig dir) >? F32.of_Z (-30)) = true
       /\ (vz (plane_point orig dir) <? F32.of_Z (-10)) = true
       /\ (F32.min MAX_DISTANCE (plane_distance orig dir) <? F32.of_Z 1000)
          = true)
  /\ (plane_hit_valid orig dir = false ->
      fst (ray_marching orig dir models o) = false)
  /\ (F32.min MAX_DISTANCE F32.FLT_MAX <? F32.of_Z 1000) = false
  /\ (MAX_DISTANCE >=? F32.of_Z 1000) = true.
Proof.
  intros H. rewrite (ray_marching_fallback orig dir models o H).
  split; [|split; [intros ->; reflexivity|split; reflexivity]].
  unfold plane_hit_valid.
  destruct (F32.fabsf (vy dir) >? EPSILON);
    destruct (plane_distance orig dir >? F32.zero);
    destruct (F32.fabsf (vx (plane_point orig dir)) <? F32.of_Z 10);
    destruct (vz (plane_point orig dir) >? F32.of_Z (-30));
    destruct (vz (plane_point orig dir) <? F32.of_Z (-10));
    cbn [andb fst]; intuition congruence.
Qed.

Lemma ray_marching_plane_hit_iff_witness :
  march_loop MAX_MARCHING_STEPS Vec.zero grazing_dir [grazed_sphere] EPSILON
             fresh_out = Exhausted
  /\ fst (ray_marching Vec.zero grazing_dir [grazed_sphere] fresh_out) = true.
Proof.
  assert (E : march_loop MAX_MARCHING_STEPS Vec.zero grazing_dir
                [grazed_sphere] EPSILON fresh_out = Exhausted)
    by (vm_compute; reflexivity).
  split; [exact E|].
  apply (proj1 (ray_marching_plane_hit_iff Vec.zero grazing_dir
                  [grazed_sphere] fresh_out (or_introl E))).
  vm_compute. repeat split.
Defined.

Lemma int_wrap_odd (z : Z) : Z.odd (int_wrap z) = Z.odd z.
Proof.
  unfold int_wrap.
  assert (E : ((z + 2 ^ 31) mod 2 ^ 32 - 2 ^ 31
               = z + 2 * (- (2 ^ 31 * ((z + 2 ^ 31) / 2 ^ 32))))%Z).
  { pose proof (Z.div_mod (z + 2 ^ 31) (2 ^ 32)) as H.
    assert (H32 : (2 ^ 32 = 2 * 2 ^ 31)%Z) by reflexivity.
    assert (Hp0 : (2 ^ 32)%Z <> 0%Z) by discriminate. specialize (H Hp0).
    rewrite H32 in *. set (q := ((z + 2 ^ 31) / (2 * 2 ^ 31))%Z) in *.
    set (r := ((z + 2 ^ 31) mod (2 * 2 ^ 31))%Z) in *.
    set (p := (2 ^ 31)%Z) in *. clearbody r q p. clear Hp0 H32. lia. }
  rewrite E. apply Z.odd_add_mul_2.
Qed.

Lemma land_one (x : Z) : Z.land x 1 = (x mod 2)%Z.
Proof. apply (Z.land_ones x 1). lia. Qed.

Lemma checker_bit_odd (hit : Vec3f) :
  negb (checker_bit hit =? 0)%Z = Z.odd (truncated_sum hit).
Proof.
  unfold checker_bit, truncated_sum, int_add.
  rewrite land_one, Zmod_odd, int_wrap_odd.
  destruct (Z.odd _); reflexivity.
Qed.

(** C2 (as amended).  On every valid checkerboard-plane hit the tile colour
    is light gray when [int(0.5*hit.x + 1000) + int(0.5*hit.z)] is odd, the
    conversions to [int] truncating toward zero, and brown otherwise; at
    [x = 0], [z = -20] this is brown, where the floor rule agrees. *)
Theorem plane_tile_by_truncated_parity (orig dir : Vec3f)
    (models : list sdf_model) (o : Out) :
  march_loop MAX_MARCHING_STEPS orig dir models EPSILON o = Exhausted
  \/ march_loop MAX_MARCHING_STEPS orig dir models EPSILON o = NoCandidate ->
  plane_hit_valid orig dir = true ->
  let o' := snd (ray_marching orig dir models o) in
  out_hit o' = plane_point orig dir
  /\ diffuse_color (out_material o')
     = (if Z.odd (truncated_sum (out_hit o')) then light_gray else brown)
  /\ (vx (out_hit o') = F32.zero -> vz (out_hit o') = F32.of_Z (-20) ->
      diffuse_color (out_material o') = brown
      /\ floor_rule_color (out_hit o') = brown).
Proof.
  intros Hloop Hvalid. rewrite (ray_marching_fallback orig dir models o Hloop).
  rewrite Hvalid. cbn [snd out_hit out_material set_diffuse_color diffuse_color].
  unfold tile_color. rewrite checker_bit_odd.
  split; [reflexivity|]. split; [reflexivity|].
  intros Hx Hz. unfold floor_rule_color, truncated_sum. rewrite Hx, Hz.
  split; vm_compute; reflexivity.
Qed.

Lemma plane_tile_by_truncated_parity_witness :
  diffuse_color
    (out_material
       (snd (ray_marching (vec_of_Z 0 (-3) (-20)) (vec_of_Z 0 (-1) 0) []
                          fresh_out)))
  = brown.
Proof.
  refine (proj1 (proj2 (proj2
            (plane_tile_by_truncated_parity (vec_of_Z 0 (-3) (-20))
               (vec_of_Z 0 (-1) 0) [] fresh_out (or_intror eq_refl) _)) _ _)).
  - vm_compute; reflexivity.
  - vm_compute; reflexivity.
  - vm_compute; reflexivity.
Defined.

(** C2 (as stated) fails: the plane hit at [(0, -4, -11)] has floor sum
    [1000 + (-6)], which is even, so the floor rule selects brown; the code
    truncates [-5.5] to [-5], finds an odd sum and selects light gray.  The
    hit is reached straight down from [(0, -3, -11)], and also by the ray
    from the camera at the origin toward [(0, -4, -11)]. *)
Lemma plane_tile_not_by_floor_parity :
  (let r := ray_marching (vec_of_Z 0 (-3) (-11)) (vec_of_Z 0 (-1) 0) []
                         fresh_out in
   fst r = true
   /\ out_hit (snd r) = vec_of_Z 0 (-4) (-11)
   /\ diffuse_color (out_material (snd r)) = light_gray
   /\ floor_rule_color (out_hit (snd r)) = brown
   /\ diffuse_color (out_material (snd r))
      <> floor_rule_color (out_hit (snd r)))
  /\ (let r := ray_marching Vec.zero
                  (Vec.normalize (vec_of_Z 0 (-4) (-11))) [] fresh_out in
      fst r = true
      /\ out_hit (snd r) = vec_of_Z 0 (-4) (-11)
      /\ diffuse_color (out_material (snd r)) = light_gray
      /\ floor_rule_color (out_hit (snd r)) = brown).
Proof.
  vm_compute. repeat split; discriminate.
Qed.

Lemma march_loop_no_hit_any_out (steps : nat) (orig dir : Vec3f)
    (models : list sdf_model) (depth : F32.float) (o o' : Out) :
  march_loop steps orig dir models depth o = Exhausted
  \/ march_loop steps orig dir models depth o = NoCandidate ->
  march_loop steps orig dir models depth o' = Exhausted
  \/ march_loop steps orig dir models depth o' = NoCandidate.
Proof.
  revert depth. induction steps as [|steps IH]; intros depth; [auto|].
  cbn [march_loop].
  destruct (scene_sdf (orig +^ dir *^ depth) models) as [dist [model|]];
    [|auto].
  destruct (dist <? EPSILON); [|apply IH].
  intros [H|H]; discriminate.
Qed.

(** ** Zero weights *)





(** ** The shader *)

Section ShaderClaims.

Variable powf : F32.float -> F32.float -> F32.float.

(** A shaded hit: both secondary rays return, and the result is the
    composite of their colours with the direct lighting. *)
Lemma cast_ray_shaded_result (fuel : nat) (orig dir : Vec3f)
    (models : list sdf_model) (lights : list Light) (depth : N) (o : Out) :
  (depth <= 4)%N -> (7 <= fuel)%nat ->
  ray_marching orig dir models fresh_out = (true, o) ->
  exists reflect_color refract_color,
    cast_ray powf fuel
      (offset_origin (out_hit o) (out_N o)
         (Vec.normalize (reflect dir (out_N o))) eps_offset)
      (Vec.normalize (reflect dir (out_N o))) models lights (depth + 1)%N
    = Some reflect_color
    /\ (if fresnel dir (out_N o) (refractive_index (out_material o))
           <? F32.one
        then exists r,
            refract fuel dir (out_N o) (refractive_index (out_material o))
                    F32.one = Some r
            /\ cast_ray powf fuel
                 (offset_origin (out_hit o) (out_N o) (Vec.normalize r)
                    EPSILON)
                 (Vec.normalize r) models lights (depth + 1)%N
               = Some refract_color
        else refract_color = Vec.zero)
    /\ cast_ray powf fuel orig dir models lights depth
       = Some (composite (out_material o)
                 (fst (lighting powf models lights (out_hit o) (out_N o) dir
                         (out_material o)))
                 (snd (lighting powf models lights (out_hit o) (out_N o) dir
                         (out_material o)))
                 reflect_color refract_color).
Proof.
  intros Hdepth Hfuel Hhit.
  destruct fuel as [|fuel]; [lia|].
  rewrite (cast_ray_shaded powf fuel _ _ _ _ _ o Hdepth Hhit).
  assert (Hsub : forall orig' dir',
             exists c, cast_ray powf fuel orig' dir' models lights
                                (depth + 1)%N = Some c).
  { intros orig' dir'. apply (cast_ray_returns_at powf 4); lia. }
  destruct (Hsub (offset_origin (out_hit o) (out_N o)
                    (Vec.normalize (reflect dir (out_N o))) eps_offset)
                 (Vec.normalize (reflect dir (out_N o)))) as [c2 Hc2].
  destruct (fresnel dir (out_N o) (refractive_index (out_material o))
            <? F32.one) eqn:Hkr.
  - destruct fuel as [|[|fuel]]; try lia.
    destruct (refract_returns_when_called fuel _ _ _ Hkr) as [r Hr].
    destruct (Hsub (offset_origin (out_hit o) (out_N o) (Vec.normalize r)
                      EPSILON) (Vec.normalize r)) as [c1 Hc1].
    exists c2, c1. rewrite Hr, Hc1, Hc2.
    split; [apply cast_ray_fuel_mono; exact Hc2|].
    split; [|reflexivity].
    exists r. split; [apply refract_fuel_mono; exact Hr|].
    apply cast_ray_fuel_mono; exact Hc1.
  - exists c2, Vec.zero. rewrite Hc2.
    split; [apply cast_ray_fuel_mono; exact Hc2|].
    split; reflexivity.
Qed.

(** C1.  For every hit shaded by [cast_ray] at depth at most 4 the
    returned colour is [diffuse_color * diffuse_light_intensity * albedo[0]
    + (1,1,1) * specular_light_intensity * albedo[1]
    + reflect_color * albedo[2] + refract_color * albedo[3]], where
    [reflect_color] and [refract_color] are what the recursive calls
    return (black when [kr >= 1]); the Fresnel coefficient [kr] only
    decides whether the refracted ray is cast and is no factor of the
    sum. *)
Theorem cast_ray_composite (fuel : nat) (orig dir : Vec3f)
    (models : list sdf_model) (lights : list Light) (depth : N) (o : Out) :
  (depth <= 4)%N -> (7 <= fuel)%nat ->
  ray_marching orig dir models fresh_out = (true, o) ->
  let point := out_hit o in
  let N := out_N o in
  let material := out_material o in
  let kr := fresnel dir N (refractive_index material) in
  let reflect_dir := Vec.normalize (reflect dir N) in
  let diffuse_light_intensity :=
    fst (lighting powf models lights point N dir material) in
  let specular_light_intensity :=
    snd (lighting powf models lights point N dir material) in
  exists reflect_color refract_color,
    cast_ray powf fuel (offset_origin point N reflect_dir eps_offset)
             reflect_dir models lights (depth + 1)%N = Some reflect_color
    /\ (if kr <? F32.one
        then exists r,
            refract fuel dir N (refractive_index material) F32.one = Some r
            /\ cast_ray powf fuel
                 (offset_origin point N (Vec.normalize r) EPSILON)
                 (Vec.normalize r) models lights (depth + 1)%N
               = Some refract_color
        else refract_color = mkVec3f F32.zero F32.zero F32.zero)
    /\ cast_ray powf fuel orig dir models lights depth
       = Some (diffuse_color material *^ diffuse_light_intensity
                 *^ a0 (albedo material)
               +^ mkVec3f F32.one F32.one F32.one
                  *^ specular_light_intensity *^ a1 (albedo material)
               +^ reflect_color *^ a2 (albedo material)
               +^ refract_color *^ a3 (albedo material)).
Proof.
  intros Hdepth Hfuel Hhit. cbv zeta.
  destruct (cast_ray_shaded_result fuel orig dir models lights depth o
              Hdepth Hfuel Hhit) as (rc & rfc & H1 & H2 & H3).
  exists rc, rfc. split; [exact H1|]. split; [exact H2|]. exact H3.
Qed.

(** C4.  [cast_ray] returns exactly the background colour
    [(0.2, 0.7, 0.8)] whenever [depth > 4] or the ray marcher reports no
    hit; in particular on a scene without primitives when the ray has no
    valid checkerboard hit. *)
Theorem cast_ray_background_color (fuel : nat) (orig dir : Vec3f)
    (models : list sdf_model) (lights : list Light) (depth : N) :
  (1 <= fuel)%nat ->
  ((4 < depth)%N \/ fst (ray_marching orig dir models fresh_out) = false ->
   cast_ray powf fuel orig dir models lights depth = Some background)
  /\ (plane_hit_valid orig dir = false ->
      cast_ray powf fuel orig dir [] lights depth = Some background)
  /\ background
     = mkVec3f (F32.lit 2 10) (F32.lit 7 10) (F32.lit 8 10).
Proof.
  intros Hfuel. destruct fuel as [|fuel]; [lia|].
  split; [apply cast_ray_background|].
  split; [|vm_compute; reflexivity].
  intros Hplane. apply cast_ray_background. right.
  rewrite (ray_marching_fallback orig dir [] fresh_out (or_intror eq_refl)).
  rewrite Hplane. reflexivity.
Qed.


End ShaderClaims.


(** ** The invocations of [cast_ray] *)

Lemma cast_ray_calls_leaf (fuel : nat) (orig dir : Vec3f)
    (models : list sdf_model) (depth : N) :
  (4 < depth)%N \/ fst (ray_marching orig dir models fresh_out) = false ->
  cast_ray_calls (S fuel) orig dir models depth = Some [depth].
Proof.
  intros H. cbn [cast_ray_calls].
  destruct (4 <? depth)%N eqn:Hd; [reflexivity|].
  destruct H as [H|H]; [apply N.ltb_lt in H; congruence|].
  destruct (ray_marching orig dir models fresh_out) as [found o].
  cbn [fst] in H. subst found. reflexivity.
Qed.

Lemma cast_ray_calls_shaded (fuel : nat) (orig dir : Vec3f)
    (models : list sdf_model) (depth : N) (o : Out) :
  (depth <= 4)%N ->
  ray_marching orig dir models fresh_out = (true, o) ->
  cast_ray_calls (S fuel) orig dir models depth
  = (refract_calls <-
       (if fresnel dir (out_N o) (refractive_index (out_material o))
           <? F32.one
        then
          r <- refract fuel dir (out_N o)
                 (refractive_index (out_material o)) F32.one ;;
          cast_ray_calls fuel
            (offset_origin (out_hit o) (out_N o) (Vec.normalize r) EPSILON)
            (Vec.normalize r) models (depth + 1)%N
        else Some []) ;;
     reflect_calls <-
       cast_ray_calls fuel
         (offset_origin (out_hit o) (out_N o)
            (Vec.normalize (reflect dir (out_N o))) eps_offset)
         (Vec.normalize (reflect dir (out_N o))) models (depth + 1)%N ;;
     Some (depth :: refract_calls ++ reflect_calls)).
Proof.
  intros Hdepth Hhit. cbn [cast_ray_calls].
  replace (4 <? depth)%N with false by (symmetry; apply N.ltb_ge; exact Hdepth).
  rewrite Hhit. cbn [negb]. rewrite (size_t_succ_small depth Hdepth).
  reflexivity.
Qed.

(** The trace follows the recursion of [cast_ray]: with any fuel, one
    returns exactly when the other does. *)
Lemma cast_ray_calls_follow (powf : F32.float -> F32.float -> F32.float)
    (fuel : nat) :
  forall orig dir models lights depth,
    cast_ray powf fuel orig dir models lights depth = None
    <-> cast_ray_calls fuel orig dir models depth = None.
Proof.
  induction fuel as [|fuel IH]; intros orig dir models lights depth;
    [split; reflexivity|].
  destruct (4 <? depth)%N eqn:Hd.
  { rewrite cast_ray_background, cast_ray_calls_leaf
      by (left; apply N.ltb_lt; exact Hd).
    split; discriminate. }
  apply N.ltb_ge in Hd.
  destruct (ray_marching orig dir models fresh_out) as [[] o] eqn:Hhit.
  2:{ rewrite cast_ray_background, cast_ray_calls_leaf
        by (right; rewrite Hhit; reflexivity).
      split; discriminate. }
  rewrite (cast_ray_shaded powf _ _ _ _ _ _ o Hd Hhit).
  rewrite (cast_ray_calls_shaded _ _ _ _ _ o Hd Hhit).
  set (refl_o := offset_origin (out_hit o) (out_N o)
                   (Vec.normalize (reflect dir (out_N o))) eps_offset).
  set (refl_d := Vec.normalize (reflect dir (out_N o))).
  pose proof (IH refl_o refl_d models lights (depth + 1)%N) as IHrefl.
  destruct (fresnel dir (out_N o) (refractive_index (out_material o))
            <? F32.one).
  - destruct (refract fuel dir (out_N o) _ F32.one) as [r|];
      [|split; reflexivity].
    pose proof (IH (offset_origin (out_hit o) (out_N o) (Vec.normalize r)
                      EPSILON) (Vec.normalize r) models lights (depth + 1)%N)
      as IHrefr.
    destruct (cast_ray powf fuel (offset_origin _ _ (Vec.normalize r) _) _ _ _ _);
      destruct (cast_ray_calls fuel (offset_origin _ _ (Vec.normalize r) _) _ _ _);
      try (split; reflexivity);
      try (destruct IHrefr as [H1 H2];
           (specialize (H1 eq_refl) || specialize (H2 eq_refl)); discriminate).
    destruct (cast_ray powf fuel refl_o refl_d models lights (depth + 1)%N);
      destruct (cast_ray_calls fuel refl_o refl_d models (depth + 1)%N);
      try (split; reflexivity); try (split; discriminate);
      destruct IHrefl as [H1 H2];
      (specialize (H1 eq_refl) || specialize (H2 eq_refl)); discriminate.
  - destruct (cast_ray powf fuel refl_o refl_d models lights (depth + 1)%N);
      destruct (cast_ray_calls fuel refl_o refl_d models (depth + 1)%N);
      try (split; reflexivity); try (split; discriminate);
      destruct IHrefl as [H1 H2];
      (specialize (H1 eq_refl) || specialize (H2 eq_refl)); discriminate.
Qed.

Lemma cast_ray_calls_bounded (k : nat) :
  forall fuel orig dir models depth,
    (5 - N.to_nat depth <= k)%nat -> (k + 2 <= fuel)%nat ->
    exists calls,
      cast_ray_calls fuel orig dir models depth = Some calls
      /\ Forall (fun d => (depth <= d <= N.max depth 5)%N) calls
      /\ (length calls <= 2 ^ S k - 1)%nat.
Proof.
  induction k as [|k IH]; intros fuel orig dir models depth Hk Hfuel.
  - destruct fuel as [|fuel]; [lia|]. exists [depth].
    split; [apply cast_ray_calls_leaf; left; lia|].
    split; [constructor; [lia|constructor]|cbn; lia].
  - destruct fuel as [|fuel]; [lia|].
    assert (Hpow : (2 ^ S (S k) = 2 * 2 ^ S k)%nat) by (cbn; lia).
    assert (Hpos : (1 <= 2 ^ S k)%nat)
      by (apply Nat.neq_0_lt_0, Nat.pow_nonzero; discriminate).
    assert (Hleaf : exists calls,
               Some [depth] = Some calls
               /\ Forall (fun d => (depth <= d <= N.max depth 5)%N) calls
               /\ (length calls <= 2 ^ S (S k) - 1)%nat).
    { exists [depth]. split; [reflexivity|].
      split; [constructor; [lia|constructor]|cbn [length]; lia]. }
    destruct (4 <? depth)%N eqn:Hd.
    { rewrite cast_ray_calls_leaf by (left; apply N.ltb_lt; exact Hd).
      exact Hleaf. }
    apply N.ltb_ge in Hd.
    destruct (ray_marching orig dir models fresh_out) as [[] o] eqn:Hhit.
    2:{ rewrite cast_ray_calls_leaf by (right; rewrite Hhit; reflexivity).
        exact Hleaf. }
    rewrite (cast_ray_calls_shaded _ _ _ _ _ o Hd Hhit).
    assert (Hsub : forall orig' dir',
               exists calls,
                 cast_ray_calls fuel orig' dir' models (depth + 1)%N
                 = Some calls
                 /\ Forall (fun d => (depth <= d <= N.max depth 5)%N) calls
                 /\ (length calls <= 2 ^ S k - 1)%nat).
    { intros orig' dir'.
      destruct (IH fuel orig' dir' models (depth + 1)%N) as (l & E & Hl & Hn);
        try lia.
      exists l. split; [exact E|]. split; [|exact Hn].
      eapply Forall_impl; [|exact Hl]. cbn beta. intros d Hdd. lia. }
    destruct (Hsub (offset_origin (out_hit o) (out_N o)
                      (Vec.normalize (reflect dir (out_N o))) eps_offset)
                   (Vec.normalize (reflect dir (out_N o))))
      as (l2 & -> & Hl2 & Hn2).
    destruct (fresnel dir (out_N o) (refractive_index (out_material o))
              <? F32.one) eqn:Hkr.
    + destruct fuel as [|[|fuel]]; try lia.
      destruct (refract_returns_when_called fuel _ _ _ Hkr) as [r ->].
      destruct (Hsub (offset_origin (out_hit o) (out_N o) (Vec.normalize r)
                        EPSILON) (Vec.normalize r)) as (l1 & -> & Hl1 & Hn1).
      exists (depth :: l1 ++ l2). split; [reflexivity|]. split.
      * constructor; [lia|]. apply Forall_app; auto.
      * cbn [length]. rewrite length_app. lia.
    + exists (depth :: [] ++ l2). split; [reflexivity|]. split.
      * constructor; [lia|]. exact Hl2.
      * cbn [length app]. lia.
Qed.

(** C5.  For every ray and scene a top-level call of [cast_ray] returns, so
    the recursive invocations it triggers are finitely many: at most
    [1 + 2 + 4 + 8 + 16 + 32 = 63], each shaded invocation casting at most
    one refracted and one reflected ray.  No invocation runs with a depth
    above 5 (above the starting depth, if that is larger), and those at
    depth 5 return at once, so only the four levels after the first call
    shade again.  The trace [cast_ray_calls] returns exactly when
    [cast_ray] does, whatever the fuel. *)
Theorem cast_ray_recursion_bounded
    (powf : F32.float -> F32.float -> F32.float) (orig dir : Vec3f)
    (models : list sdf_model) (lights : list Light) (depth : N) :
  exists c,
    (forall extra,
        cast_ray powf (7 + extra) orig dir models lights depth = Some c)
    /\ forall extra,
      exists calls,
        cast_ray_calls (7 + extra) orig dir models depth = Some calls
        /\ Forall (fun d => (depth <= d <= N.max depth 5)%N) calls
        /\ (length calls <= 63)%nat
        /\ (forall fuel orig' dir' d,
               (4 < d)%N ->
               cast_ray_calls (S fuel) orig' dir' models d = Some [d])
        /\ (forall fuel,
               cast_ray powf fuel orig dir models lights depth = None
               <-> cast_ray_calls fuel orig dir models depth = None).
Proof.
  destruct (cast_ray_returns powf 7 orig dir models lights depth (le_n 7))
    as [c Hc].
  exists c. split.
  - intros extra. apply (cast_ray_fuel_le powf 7); [lia|exact Hc].
  - intros extra.
    destruct (cast_ray_calls_bounded 5 (7 + extra) orig dir models depth)
      as (calls & E & Hd & Hn); try lia.
    exists calls. split; [exact E|]. split; [exact Hd|].
    split; [exact Hn|]. split.
    + intros fuel orig' dir' d Hgt. apply cast_ray_calls_leaf.
      left; exact Hgt.
    + intros fuel. apply cast_ray_calls_follow.
Qed.

(** ** Fallback values of [fresnel] and [refract] *)

Lemma refract_no_swap (fuel : nat) (I N : Vec3f) (eta_t eta_i : F32.float) :
  (refract_cosi I N <? F32.zero) = false ->
  refract (S fuel) I N eta_t eta_i
  = Some (if refract_k I N eta_t eta_i <? F32.zero
          then mkVec3f F32.one F32.zero F32.zero
          else I *^ (eta_i / eta_t)
               +^ N *^ (eta_i / eta_t * refract_cosi I N
                        - F32.sqrtf (refract_k I N eta_t eta_i))).
Proof. intros H. cbn [refract]. rewrite H. reflexivity. Qed.

Lemma refract_swap (fuel : nat) (I N : Vec3f) (eta_t eta_i : F32.float) :
  (refract_cosi I N <? F32.zero) = true ->
  refract (S fuel) I N eta_t eta_i = refract fuel I (Vec.neg N) eta_i eta_t.
Proof. intros H. cbn [refract]. rewrite H. reflexivity. Qed.

(** After a swap the flipped normal does not ask for another one. *)
Lemma refract_cosi_flipped (I N : Vec3f) :
  F32.is_nan (I `*` N) = false ->
  (refract_cosi I N <? F32.zero) = true ->
  (refract_cosi I (Vec.neg N) <? F32.zero) = false.
Proof.
  intros Hnan Hswap. rewrite (refract_cosi_neg I N Hnan) in Hswap.
  assert (Hnan' : F32.is_nan (I `*` Vec.neg N) = false).
  { rewrite (same_num_is_nan _ _ (dot_neg_r I N)), is_nan_neg. exact Hnan. }
  rewrite (refract_cosi_neg I (Vec.neg N) Hnan').
  rewrite (same_num_ltb_r _ _ F32.zero (dot_neg_r I N)), zero_ltb_neg.
  apply ltb_asym; exact Hswap.
Qed.

(** C7.  [fresnel] sets [kr = 1] whenever the transmitted sine it computes
    is at least 1, and [refract] returns the fixed direction [(1, 0, 0)]
    whenever its discriminant is negative, be it on the direct branch or
    after the swap for a ray that comes from inside.  Both are ordinary
    values: [fresnel] is a total function, and [refract] returns after at
    most one swap for every direction and normal whose dot product is a
    number. *)
Theorem total_reflection_fallbacks (fuel : nat) (I N : Vec3f)
    (ior eta_t eta_i : F32.float) :
  ((fresnel_sint I N ior >=? F32.one) = true -> fresnel I N ior = F32.one)
  /\ ((refract_cosi I N <? F32.zero) = false ->
      (refract_k I N eta_t eta_i <? F32.zero) = true ->
      refract (S fuel) I N eta_t eta_i
      = Some (mkVec3f F32.one F32.zero F32.zero))
  /\ (F32.is_nan (I `*` N) = false ->
      (refract_cosi I N <? F32.zero) = true ->
      (refract_k I (Vec.neg N) eta_i eta_t <? F32.zero) = true ->
      refract (S (S fuel)) I N eta_t eta_i
      = Some (mkVec3f F32.one F32.zero F32.zero))
  /\ (F32.is_nan (I `*` N) = false ->
      exists r, refract (S (S fuel)) I N eta_t eta_i = Some r).
Proof.
  split; [|split; [|split]].
  - intros H. unfold fresnel. rewrite H. reflexivity.
  - intros Hcos Hk. rewrite (refract_no_swap fuel I N eta_t eta_i Hcos), Hk.
    reflexivity.
  - intros Hnan Hswap Hk.
    rewrite (refract_swap (S fuel) I N eta_t eta_i Hswap).
    rewrite (refract_no_swap fuel I (Vec.neg N) eta_i eta_t
               (refract_cosi_flipped I N Hnan Hswap)), Hk.
    reflexivity.
  - apply refract_returns.
Qed.

Lemma total_reflection_fallbacks_witness :
  fresnel (Vec.normalize (vec_of_Z 1 0 1)) (vec_of_Z 0 0 1) (F32.lit 3 2)
  = F32.one
  /\ refract 1 (Vec.normalize (vec_of_Z 1 0 (-1))) (vec_of_Z 0 0 1)
             (F32.lit 1 2) F32.one
     = Some (mkVec3f F32.one F32.zero F32.zero)
  /\ refract 2 (Vec.normalize (vec_of_Z 1 0 1)) (vec_of_Z 0 0 1)
             (F32.lit 3 2) F32.one
     = Some (mkVec3f F32.one F32.zero F32.zero).
Proof.
  split; [|split].
  - apply (proj1 (total_reflection_fallbacks 0
                    (Vec.normalize (vec_of_Z 1 0 1)) (vec_of_Z 0 0 1)
                    (F32.lit 3 2) (F32.lit 3 2) F32.one)).
    vm_compute; reflexivity.
  - apply (proj1 (proj2 (total_reflection_fallbacks 0
                    (Vec.normalize (vec_of_Z 1 0 (-1))) (vec_of_Z 0 0 1)
                    (F32.lit 3 2) (F32.lit 1 2) F32.one)));
      vm_compute; reflexivity.
  - apply (proj1 (proj2 (proj2 (total_reflection_fallbacks 0
                    (Vec.normalize (vec_of_Z 1 0 1)) (vec_of_Z 0 0 1)
                    (F32.lit 3 2) (F32.lit 3 2) F32.one))));
      vm_compute; reflexivity.
Defined.

(** ** Subtraction of well-formed numbers keeps the order *)

Lemma digits2_pos_bounds (m : positive) :
  (2 ^ (Zpos (digits2_pos m) - 1) <= Zpos m < 2 ^ Zpos (digits2_pos m))%Z.
Proof.
  induction m as [m IH|m IH|]; cbn [digits2_pos]; [| |cbn; lia].
  - rewrite Pos2Z.inj_succ, (Pos2Z.inj_xI m).
    replace (Z.succ (Zpos (digits2_pos m)) - 1)%Z
      with (Z.succ (Zpos (digits2_pos m) - 1)) by lia.
    rewrite !Z.pow_succ_r by lia. lia.
  - rewrite Pos2Z.inj_succ, (Pos2Z.inj_xO m).
    replace (Z.succ (Zpos (digits2_pos m)) - 1)%Z
      with (Z.succ (Zpos (digits2_pos m) - 1)) by lia.
    rewrite !Z.pow_succ_r by lia. lia.
Qed.

Lemma iter_xO_pow (m d : positive) :
  Zpos (Pos.iter xO m d) = (Zpos m * 2 ^ Zpos d)%Z.
Proof.
  induction d as [|d IH] using Pos.peano_ind.
  - cbn. lia.
  - rewrite Pos.iter_succ, (Pos2Z.inj_xO (Pos.iter xO m d)), IH, Pos2Z.inj_succ,
      Z.pow_succ_r by lia.
    lia.
Qed.

Lemma shl_align_value (m : positive) (e e' : Z) :
  (e' <= e)%Z ->
  Zpos (fst (shl_align m e e')) = (Zpos m * 2 ^ (e - e'))%Z.
Proof.
  intros H. unfold shl_align.
  destruct (e' - e)%Z as [|d|d] eqn:E; cbn [fst].
  - replace (e - e')%Z with 0%Z by lia. cbn. lia.
  - lia.
  - rewrite iter_xO_pow. replace (e - e')%Z with (Zpos d) by lia. reflexivity.
Qed.

Lemma valid_finite (s : bool) (m : positive) (e : Z) :
  F32.valid (S754_finite s m e) = true ->
  (-149 <= e)%Z /\ (Zpos (digits2_pos m) <= 24)%Z
  /\ ((-149 < e)%Z -> Zpos (digits2_pos m) = 24%Z).
Proof.
  unfold F32.valid, valid_binary, bounded, canonical_mantissa, fexp, emin,
    F32.prec, F32.emax.
  intros H. apply andb_prop in H as [H _]. apply Z.eqb_eq in H. lia.
Qed.

(** With a larger exponent, a well-formed mantissa outweighs the other. *)
Lemma aligned_mantissa_gt (m1 m2 : positive) (e1 e2 : Z) (s1 s2 : bool) :
  F32.valid (S754_finite s1 m1 e1) = true ->
  F32.valid (S754_finite s2 m2 e2) = true ->
  (e2 < e1)%Z -> (Zpos m2 < Zpos m1 * 2 ^ (e1 - e2))%Z.
Proof.
  intros V1 V2 He.
  apply valid_finite in V1 as (_ & _ & D1). apply valid_finite in V2 as (E2 & D2 & _).
  specialize (D1 ltac:(lia)).
  pose proof (digits2_pos_bounds m1) as B1. pose proof (digits2_pos_bounds m2) as B2.
  rewrite D1 in B1.
  assert (P2 : (2 ^ Zpos (digits2_pos m2) <= 2 ^ 24)%Z)
    by (apply Z.pow_le_mono_r; lia).
  assert (P1 : (2 ^ 1 <= 2 ^ (e1 - e2))%Z) by (apply Z.pow_le_mono_r; lia).
  change (2 ^ 1)%Z with 2%Z in P1. change (2 ^ (24 - 1))%Z with 8388608%Z in B1.
  change (2 ^ 24)%Z with 16777216%Z in P2. nia.
Qed.

Lemma binary_round_not_negative (m : positive) (e : Z) :
  not_negative (binary_round F32.prec F32.emax false m e).
Proof.
  unfold not_negative, binary_round, binary_round_aux.
  destruct (shl_align _ _ _) as [mz ez].
  destruct (shr_fexp _ _ _ _ _) as [mrs' e'].
  destruct (shr_fexp _ _ _ _ _) as [mrs'' e''].
  destruct (shr_m mrs''); [reflexivity| |reflexivity].
  destruct (_ <=? _)%Z; reflexivity.
Qed.

Lemma sub_not_negative (x y : F32.float) :
  F32.valid x = true -> F32.valid y = true ->
  (x <? y) = false -> not_negative (x - y).
Proof.
  destruct x as [sx|sx| |sx mx ex]; destruct y as [sy|sy| |sy my ey];
    intros Vx Vy Hlt; unfold not_negative;
    try reflexivity;
    try (destruct sx, sy; try discriminate; reflexivity).
  unfold F32.sub, SFsub.
  set (ez := Z.min ex ey).
  rewrite (shl_align_value mx ex ez), (shl_align_value my ey ez)
    by (unfold ez; lia).
  destruct (cond_Zopp sx (Zpos mx * 2 ^ (ex - ez))
            - cond_Zopp sy (Zpos my * 2 ^ (ey - ez)))%Z as [|d|d] eqn:E;
    [reflexivity|apply binary_round_not_negative|].
  exfalso.
  assert (Hneg : (cond_Zopp sx (Zpos mx * 2 ^ (ex - ez))
                  < cond_Zopp sy (Zpos my * 2 ^ (ey - ez)))%Z) by lia.
  clear E d.
  assert (Px : (0 < Zpos mx * 2 ^ (ex - ez))%Z)
    by (apply Z.mul_pos_pos; [lia|apply Z.pow_pos_nonneg; unfold ez; lia]).
  assert (Py : (0 < Zpos my * 2 ^ (ey - ez))%Z)
    by (apply Z.mul_pos_pos; [lia|apply Z.pow_pos_nonneg; unfold ez; lia]).
  unfold F32.ltb, SFltb, SFcompare in Hlt.
  destruct sx, sy; cbn [cond_Zopp] in Hneg; try discriminate; try lia.
  - (* both negative *)
    destruct (Z.compare_spec ex ey) as [Heq|Hlt'|Hgt]; try discriminate.
    + subst ey. replace ez with ex in Hneg by (unfold ez; lia).
      rewrite Z.sub_diag in Hneg. cbn in Hneg.
      change (Pos.compare_cont Eq mx my) with (Pos.compare mx my) in Hlt.
      destruct (Pos.compare_spec mx my); cbn in Hlt; try discriminate; lia.
    + pose proof (aligned_mantissa_gt my mx ey ex true true Vy Vx Hlt').
      replace ez with ex in Hneg by (unfold ez; lia).
      rewrite Z.sub_diag in Hneg. cbn [Z.pow] in Hneg. lia.
  - (* both positive *)
    destruct (Z.compare_spec ex ey) as [Heq|Hlt'|Hgt]; try discriminate.
    + subst ey. replace ez with ex in Hneg by (unfold ez; lia).
      rewrite Z.sub_diag in Hneg. cbn in Hneg.
      change (Pos.compare_cont Eq mx my) with (Pos.compare mx my) in Hlt.
      destruct (Pos.compare_spec mx my); cbn in Hlt; try discriminate; lia.
    + pose proof (aligned_mantissa_gt mx my ex ey false false Vx Vy Hgt).
      replace ez with ey in Hneg by (unfold ez; lia).
      rewrite Z.sub_diag in Hneg. cbn [Z.pow] in Hneg. lia.
Qed.

(** ** Arguments of [sqrtf] and clamped cosines *)

Lemma max_zero_ge_zero (x : F32.float) :
  (F32.max F32.zero x >=? F32.zero) = true.
Proof.
  unfold F32.max. destruct (F32.zero <? x) eqn:H; [|reflexivity].
  destruct x as [[]|[]| |[] ? ?]; try discriminate; reflexivity.
Qed.

Lemma ge_zero_not_negative (x : F32.float) :
  (x >=? F32.zero) = true -> not_negative x.
Proof.
  unfold not_negative.
  destruct x as [[]|[]| |[] ? ?]; try discriminate; reflexivity.
Qed.

Lemma neg_ltb_neg (a b : F32.float) : (- a <? - b) = (b <? a).
Proof.
  unfold F32.ltb, SFltb, SFcompare, F32.neg, SFopp.
  destruct a as [[]|[]| |[] m1 e1]; destruct b as [[]|[]| |[] m2 e2];
    cbn [negb]; try reflexivity; order_cases.
Qed.

Lemma clamp_bounds (v lo hi : F32.float) :
  (lo <? hi) = true ->
  (F32.clamp v lo hi <? lo) = false /\ (hi <? F32.clamp v lo hi) = false.
Proof.
  intros H. unfold F32.clamp.
  destruct (v <? lo) eqn:H1.
  - split; [apply ltb_irrefl|apply ltb_asym; exact H].
  - destruct (hi <? v) eqn:H2.
    + split; [apply ltb_asym; exact H|apply ltb_irrefl].
    + split; assumption.
Qed.

Lemma refract_cosi_bounds (I N : Vec3f) :
  (refract_cosi I N <? - F32.one) = false
  /\ (F32.one <? refract_cosi I N) = false.
Proof.
  unfold refract_cosi. generalize (I `*` N). intros d.
  set (m := F32.max (- F32.one) (F32.min F32.one d)).
  assert (Hm : (m <? - F32.one) = false /\ (F32.one <? m) = false).
  { unfold m, F32.max, F32.min.
    destruct (d <? F32.one) eqn:H1.
    - destruct (- F32.one <? d) eqn:H2.
      + split; [apply ltb_asym; exact H2|apply ltb_asym; exact H1].
      + split; reflexivity.
    - split; reflexivity. }
  destruct Hm as [Hlo Hhi]. split.
  - rewrite neg_ltb_neg. exact Hhi.
  - change (F32.one <? - m) with (- (- F32.one) <? - m).
    rewrite neg_ltb_neg. exact Hlo.
Qed.

Lemma refract_sqrt_args_not_negative (fuel : nat) :
  forall I N eta_t eta_i,
    Forall not_negative (refract_sqrt_args fuel I N eta_t eta_i).
Proof.
  induction fuel as [|fuel IH]; intros I N eta_t eta_i; [constructor|].
  cbn [refract_sqrt_args].
  destruct (refract_cosi I N <? F32.zero); [apply IH|].
  destruct (refract_k I N eta_t eta_i <? F32.zero) eqn:Hk; constructor.
  - exact Hk.
  - constructor.
Qed.

Lemma ray_intersect_sqrt_args_not_negative (center : Vec3f)
    (radius : F32.float) (orig dir : Vec3f) :
  let L := center -^ orig in
  F32.valid (radius * radius) = true ->
  F32.valid ((L `*` L) - (L `*` dir) * (L `*` dir)) = true ->
  Forall not_negative (ray_intersect_sqrt_args center radius orig dir).
Proof.
  intros L V1 V2. unfold ray_intersect_sqrt_args. fold L.
  destruct (L `*` dir <? F32.zero); [constructor|].
  rewrite gtb_ltb.
  destruct (radius * radius <? (L `*` L) - (L `*` dir) * (L `*` dir)) eqn:H;
    constructor; [|constructor].
  unfold ray_intersect_radicand. fold L.
  apply sub_not_negative; assumption.
Qed.

Lemma binary_round_aux_sign_clear (m e : Z) (l : location) :
  sign_clear (binary_round_aux F32.prec F32.emax false m e l) = true.
Proof.
  unfold binary_round_aux.
  destruct (shr_fexp _ _ _ _ _) as [mrs' e'].
  destruct (shr_fexp _ _ _ _ _) as [mrs'' e''].
  destruct (shr_m mrs''); [reflexivity| |reflexivity].
  destruct (_ <=? _)%Z; reflexivity.
Qed.

Lemma mul_self_sign_clear (x : F32.float) : sign_clear (x * x) = true.
Proof.
  destruct x as [s|s| |s m e]; try reflexivity; cbn [F32.mul SFmul].
  - destruct s; reflexivity.
  - rewrite xorb_nilpotent. apply binary_round_aux_sign_clear.
Qed.

Lemma add_sign_clear (a b : F32.float) :
  sign_clear a = true -> sign_clear b = true -> sign_clear (a + b) = true.
Proof.
  destruct a as [sa|[]| |[] ma ea]; destruct b as [sb|[]| |[] mb eb];
    try discriminate; intros _ _; try reflexivity.
  - destruct sa, sb; reflexivity.
  - unfold F32.add, SFadd. cbn [cond_Zopp Z.add binary_normalize].
    unfold binary_round. destruct (shl_align _ _ _) as [mz ez].
    apply binary_round_aux_sign_clear.
Qed.

Lemma sign_clear_not_negative (x : F32.float) :
  sign_clear x = true -> not_negative x.
Proof.
  unfold not_negative.
  destruct x as [[]|[]| |[] ? ?]; try discriminate; reflexivity.
Qed.

(** The radicand of every [norm]. *)
Lemma dot_self_not_negative (v : Vec3f) : not_negative (v `*` v).
Proof.
  apply sign_clear_not_negative. unfold Vec.dot.
  repeat apply add_sign_clear; apply mul_self_sign_clear.
Qed.

(** C9 (as amended).  Every argument of [sqrtf] in [fresnel], [refract] and
    [Sphere::ray_intersect] is clamped or tested before use, so that no
    square root is taken of a negative number, and the cosines are clamped
    to [[-1, 1]]: the two radicands of [fresnel] are at least zero, that of
    [refract] is used only when the test [k < 0] fails, that of every
    [norm] is a sum of squares, and that of [ray_intersect] is used only
    when the test [d2 > radius*radius] fails (the two compared values being
    well-formed binary32 numbers). *)
Theorem sqrt_arguments_guarded (fuel : nat) (I N : Vec3f)
    (ior eta_t eta_i : F32.float) (center : Vec3f) (radius : F32.float)
    (orig dir : Vec3f) :
  ((fresnel_cosi I N <? - F32.one) = false
   /\ (F32.one <? fresnel_cosi I N) = false)
  /\ ((refract_cosi I N <? - F32.one) = false
      /\ (F32.one <? refract_cosi I N) = false)
  /\ Forall (fun a => (a >=? F32.zero) = true) (fresnel_sqrt_args I N ior)
  /\ Forall not_negative (fresnel_sqrt_args I N ior)
  /\ Forall not_negative (refract_sqrt_args fuel I N eta_t eta_i)
  /\ (forall v, not_negative (v `*` v))
  /\ (F32.valid (radius * radius) = true ->
      F32.valid (((center -^ orig) `*` (center -^ orig))
                 - ((center -^ orig) `*` dir) * ((center -^ orig) `*` dir))
      = true ->
      Forall not_negative (ray_intersect_sqrt_args center radius orig dir)).
Proof.
  split; [apply clamp_bounds; reflexivity|].
  split; [apply refract_cosi_bounds|].
  assert (Hf : Forall (fun a => (a >=? F32.zero) = true)
                 (fresnel_sqrt_args I N ior)).
  { unfold fresnel_sqrt_args, fresnel_radicand_sint, fresnel_radicand_cost.
    destruct (fresnel_sint I N ior >=? F32.one);
      repeat constructor; apply max_zero_ge_zero. }
  split; [exact Hf|].
  split; [eapply Forall_impl; [|exact Hf]; apply ge_zero_not_negative|].
  split; [apply refract_sqrt_args_not_negative|].
  split; [apply dot_self_not_negative|].
  apply ray_intersect_sqrt_args_not_negative.
Qed.

Lemma sqrt_arguments_guarded_witness :
  Forall not_negative
    (ray_intersect_sqrt_args (vec_of_Z 6 0 (-8)) (F32.of_Z 4) Vec.zero
       head_on_dir)
  /\ ray_intersect_sqrt_args (vec_of_Z 6 0 (-8)) (F32.of_Z 4) Vec.zero
       head_on_dir <> [].
Proof.
  split.
  - apply (proj2 (proj2 (proj2 (proj2 (proj2 (proj2
             (sqrt_arguments_guarded 2 head_on_dir (vec_of_Z 0 0 1)
                F32.one F32.one F32.one (vec_of_Z 6 0 (-8)) (F32.of_Z 4)
                Vec.zero head_on_dir)))))));
      vm_compute; reflexivity.
  - vm_compute. discriminate.
Defined.

(** C9 (as stated) fails: the divisions of [fresnel] are not guarded.  With
    the refractive index 0 that [main] gives three of its materials and a
    ray that meets the surface head-on ([I = (0, 0, -1)], [N = (0, 0, 1)]),
    [sint] is [1/0 * 0] and [Rs] is [0/0]: the coefficient [kr] is not a
    number.  The ray from the origin along [(0.6, 0, -0.8)] meets the mirror
    sphere in this way. *)
Lemma fresnel_zero_index_nan :
  refractive_index mirror = F32.zero
  /\ fresnel_sint (vec_of_Z 0 0 (-1)) (vec_of_Z 0 0 1) F32.zero = S754_nan
  /\ fresnel (vec_of_Z 0 0 (-1)) (vec_of_Z 0 0 1) F32.zero = S754_nan
  /\ let r := ray_marching Vec.zero head_on_dir [head_on_sphere] fresh_out in
     fst r = true
     /\ head_on_dir `*` out_N (snd r) = - F32.one
     /\ fresnel head_on_dir (out_N (snd r))
          (refractive_index (out_material (snd r))) = S754_nan.
Proof. vm_compute. repeat split. Qed.

(** ** Examples on concrete rays *)

Lemma cast_ray_composite_witness :
  exists reflect_color refract_color,
    cast_ray powf_whole 7 Vec.zero head_on_dir [head_on_sphere] [first_light]
             0%N
    = Some (composite mirror
              (fst (lighting powf_whole [head_on_sphere] [first_light]
                      (out_hit (snd (ray_marching Vec.zero head_on_dir
                                       [head_on_sphere] fresh_out)))
                      (out_N (snd (ray_marching Vec.zero head_on_dir
                                     [head_on_sphere] fresh_out)))
                      head_on_dir mirror))
              (snd (lighting powf_whole [head_on_sphere] [first_light]
                      (out_hit (snd (ray_marching Vec.zero head_on_dir
                                       [head_on_sphere] fresh_out)))
                      (out_N (snd (ray_marching Vec.zero head_on_dir
                                     [head_on_sphere] fresh_out)))
                      head_on_dir mirror))
              reflect_color refract_color).
Proof.
  assert (Hhit : ray_marching Vec.zero head_on_dir [head_on_sphere] fresh_out
                 = (true, snd (ray_marching Vec.zero head_on_dir
                                 [head_on_sphere] fresh_out)))
    by (vm_compute; reflexivity).
  assert (Hmat : out_material (snd (ray_marching Vec.zero head_on_dir
                                      [head_on_sphere] fresh_out)) = mirror)
    by (vm_compute; reflexivity).
  destruct (cast_ray_composite powf_whole 7 Vec.zero head_on_dir
              [head_on_sphere] [first_light] 0%N _
              ltac:(vm_compute; discriminate) (le_n 7) Hhit)
    as (rc & rfc & _ & _ & H).
  exists rc, rfc. rewrite H, Hmat. reflexivity.
Defined.

Lemma cast_ray_background_color_witness :
  cast_ray powf_whole 1 Vec.zero (vec_of_Z 0 1 0) [head_on_sphere]
           [first_light] 5%N = Some background
  /\ cast_ray powf_whole 1 Vec.zero (vec_of_Z 0 1 0) [] [first_light] 0%N
     = Some background.
Proof.
  split.
  - apply (proj1 (cast_ray_background_color powf_whole 1 Vec.zero
                    (vec_of_Z 0 1 0) [head_on_sphere] [first_light] 5%N
                    (le_n 1))).
    left. reflexivity.
  - apply (proj1 (proj2 (cast_ray_background_color powf_whole 1 Vec.zero
                           (vec_of_Z 0 1 0) [head_on_sphere] [first_light]
                           0%N (le_n 1)))).
    vm_compute; reflexivity.
Defined.


(** * Further properties *)

(** ** More sign symmetry *)

Lemma neg_involutive (x : F32.float) : - - x = x.
Proof. destruct x as [[]|[]| |[] ? ?]; reflexivity. Qed.

Lemma mul_neg_l (a b : F32.float) : (- a) * b = - (a * b).
Proof.
  destruct a as [sa|sa| |sa ma ea]; destruct b as [sb|sb| |sb mb eb];
    try reflexivity; cbn [F32.neg SFopp F32.mul SFmul];
    try (destruct sa, sb; reflexivity).
  replace (xorb (negb sa) sb) with (negb (xorb sa sb))
    by (destruct sa, sb; reflexivity).
  apply binary_round_aux_negb.
Qed.

Lemma sub_add_neg (x y : F32.float) : x - y = x + - y.
Proof.
  destruct x as [sx|sx| |sx mx ex]; destruct y as [sy|sy| |sy my ey];
    try reflexivity; destruct sx, sy; reflexivity.
Qed.

Lemma same_num_ltb_l (x y c : F32.float) : same_num x y -> (x <? c) = (y <? c).
Proof.
  intros [->|[Hx Hy]]; [reflexivity|].
  destruct x; try discriminate. destruct y; try discriminate.
  destruct c as [|[]| |[] ? ?]; reflexivity.
Qed.

Lemma mul_same_num_r (a x y : F32.float) :
  same_num x y -> same_num (a * x) (a * y).
Proof.
  intros [->|[Hx Hy]]; [left; reflexivity|].
  destruct x as [sx| | |]; try discriminate.
  destruct y as [sy| | |]; try discriminate.
  destruct a as [sa|sa| |sa ma ea]; try (left; reflexivity);
    right; split; reflexivity.
Qed.

Lemma sub_same_num_r (a x y : F32.float) :
  same_num x y -> same_num (a - x) (a - y).
Proof.
  intros [->|[Hx Hy]]; [left; reflexivity|].
  destruct x as [sx| | |]; try discriminate.
  destruct y as [sy| | |]; try discriminate.
  destruct a as [sa|sa| |sa ma ea]; try (left; reflexivity).
  destruct sa, sx, sy; (left; reflexivity) || (right; split; reflexivity).
Qed.

(** ** Orientation of the normal *)

(** X1.  [reflect] does not depend on the orientation of the normal:
    flipping [N] gives the same direction, component by component the same
    number. *)
Theorem reflect_flipped_normal (I N : Vec3f) :
  vec_same (reflect I (Vec.neg N)) (reflect I N).
Proof.
  assert (H : forall i n : F32.float,
             same_num (i - (- n) * F32.of_Z 2 * (I `*` Vec.neg N))
                      (i - n * F32.of_Z 2 * (I `*` N))).
  { intros i n. apply sub_same_num_r. rewrite mul_neg_l.
    eapply same_num_trans;
      [apply mul_same_num_r, dot_neg_r|].
    rewrite mul_neg_l, mul_neg_r, neg_involutive. left; reflexivity. }
  unfold reflect, Vec.sub, Vec.scale, Vec.neg. cbn [vx vy vz].
  repeat split; apply H.
Qed.

(** X2.  The origin of a secondary ray is offset to the side of the surface
    the ray leaves on, whichever way the normal points: unless the direction
    is perpendicular to the normal (or the dot product is not a number),
    flipping [N] gives the same origin. *)
Theorem offset_origin_flipped_normal (point N dir : Vec3f) (eps : F32.float) :
  (dir `*` N <? F32.zero) = true \/ (F32.zero <? dir `*` N) = true ->
  offset_origin point (Vec.neg N) dir eps = offset_origin point N dir eps.
Proof.
  intros H. unfold offset_origin.
  rewrite (same_num_ltb_l _ _ F32.zero (dot_neg_r dir N)), neg_ltb_zero.
  assert (E : point +^ Vec.neg N *^ eps = point -^ N *^ eps
              /\ point -^ Vec.neg N *^ eps = point +^ N *^ eps).
  { unfold Vec.add, Vec.sub, Vec.scale, Vec.neg. cbn [vx vy vz].
    rewrite !sub_add_neg, !mul_neg_l, !neg_involutive. split; reflexivity. }
  destruct E as [E1 E2].
  destruct H as [H|H].
  - rewrite H, (ltb_asym _ _ H). exact E1.
  - rewrite H, (ltb_asym _ _ H). exact E2.
Qed.

(** ** The scene field, further *)

Lemma candidate_not_nan (point : Vec3f) (m : sdf_model) :
  candidate point m = true -> F32.is_nan (sdf m point) = false.
Proof.
  unfold candidate. intros H. apply andb_prop in H as [_ H].
  destruct (sdf m point); try reflexivity. discriminate.
Qed.

Lemma scene_sdf_distance_range_lemma (point : Vec3f)
    (models : list sdf_model) :
  (MAX_DISTANCE <? fst (scene_sdf point models)) = false.
Proof.
  pose proof (scene_sdf_correct point models) as Inv.
  unfold scene_sdf_inv, candidate in Inv.
  destruct (scene_sdf point models) as [d [m|]]; cbn [fst snd] in *.
  - destruct Inv as (_ & -> & Hc & _). apply andb_prop in Hc as [_ Hmax].
    apply ltb_asym; exact Hmax.
  - destruct Inv as (-> & _). reflexivity.
Qed.

(** X3.  The distance that [scene_sdf] returns is never negative, never
    above [MAX_DISTANCE] and never NaN, whatever the primitives report. *)
Theorem scene_sdf_distance_range (point : Vec3f) (models : list sdf_model) :
  let d := fst (scene_sdf point models) in
  (d <? F32.zero) = false /\ (MAX_DISTANCE <? d) = false
  /\ F32.is_nan d = false.
Proof.
  pose proof (scene_sdf_correct point models) as Inv.
  unfold scene_sdf_inv in Inv.
  destruct (scene_sdf point models) as [d [m|]]; cbn [fst snd] in *.
  - destruct Inv as (_ & -> & Hc & _).
    pose proof (candidate_not_nan _ _ Hc) as Hnan.
    unfold candidate in Hc. apply andb_prop in Hc as [Hneg Hmax].
    apply negb_true_iff in Hneg.
    split; [exact Hneg|]. split; [apply ltb_asym; exact Hmax|exact Hnan].
  - destruct Inv as (-> & _). repeat split.
Qed.

(** X4.  The distance that [scene_sdf] returns does not depend on the order
    of the primitives: for two orderings of the same primitives the two
    distances are the same number.  (The hit model can differ, the first of
    several primitives at the least distance being kept.) *)
Theorem scene_sdf_distance_order (point : Vec3f)
    (models models' : list sdf_model) :
  Permutation models models' ->
  same_num (fst (scene_sdf point models)) (fst (scene_sdf point models')).
Proof.
  intros P.
  pose proof (scene_sdf_correct point models) as Inv.
  pose proof (scene_sdf_correct point models') as Inv'.
  unfold scene_sdf_inv in Inv, Inv'.
  destruct (scene_sdf point models) as [d [m|]];
    destruct (scene_sdf point models') as [d' [m'|]]; cbn [fst snd] in *.
  - destruct Inv as (Hin & -> & Hc & Hmin).
    destruct Inv' as (Hin' & -> & Hc' & Hmin').
    pose proof (Hmin m' (Permutation_in _ (Permutation_sym P) Hin') Hc') as H1.
    pose proof (Hmin' m (Permutation_in _ P Hin) Hc) as H2.
    destruct (ltb_total _ _ (candidate_not_nan _ _ Hc)
                (candidate_not_nan _ _ Hc')) as [H|[H|[H|H]]].
    + rewrite H in H2. discriminate.
    + rewrite H in H1. discriminate.
    + left; exact H.
    + right; exact H.
  - destruct Inv as (Hin & _ & Hc & _). destruct Inv' as (_ & Hnone).
    rewrite (Hnone m (Permutation_in _ P Hin)) in Hc. discriminate.
  - destruct Inv' as (Hin' & _ & Hc' & _). destruct Inv as (_ & Hnone).
    rewrite (Hnone m' (Permutation_in _ (Permutation_sym P) Hin')) in Hc'.
    discriminate.
  - destruct Inv as (-> & _). destruct Inv' as (-> & _). left; reflexivity.
Qed.

(** ** The marching loop *)

Lemma scene_sdf_no_candidate (point : Vec3f) (models : list sdf_model) :
  (forall m, In m models -> candidate point m = false) ->
  scene_sdf point models = (MAX_DISTANCE, None).
Proof.
  intros Hnone. pose proof (scene_sdf_correct point models) as Inv.
  unfold scene_sdf_inv in Inv.
  destruct (scene_sdf point models) as [d [m|]]; cbn [fst snd] in *.
  - destruct Inv as (Hin & _ & Hc & _). rewrite (Hnone m Hin) in Hc.
    discriminate.
  - destruct Inv as (-> & _). reflexivity.
Qed.

(** X5.  When at the first sample [orig + dir * EPSILON] no primitive of
    the scene is a candidate (each reports a negative distance, as a sphere
    does from its inside, or a distance that is not below [MAX_DISTANCE]),
    the loop is left in its first iteration and [ray_marching] answers as
    it does for a scene without primitives: from the checkerboard alone. *)
Theorem ray_marching_from_inside (orig dir : Vec3f) (models : list sdf_model)
    (o : Out) :
  (forall m, In m models ->
             candidate (orig +^ dir *^ EPSILON) m = false) ->
  march_loop MAX_MARCHING_STEPS orig dir models EPSILON o = NoCandidate
  /\ ray_marching orig dir models o = ray_marching orig dir [] o.
Proof.
  intros Hnone.
  assert (E : march_loop MAX_MARCHING_STEPS orig dir models EPSILON o
              = NoCandidate).
  { change MAX_MARCHING_STEPS with (S 127). cbn [march_loop].
    rewrite (scene_sdf_no_candidate _ _ Hnone). reflexivity. }
  split; [exact E|].
  rewrite (ray_marching_fallback orig dir models o (or_intror E)).
  rewrite (ray_marching_fallback orig dir [] o (or_intror eq_refl)).
  reflexivity.
Qed.

(** What a primitive hit of the loop consists of. *)
Lemma march_loop_hit (steps : nat) (orig dir : Vec3f)
    (models : list sdf_model) (o h : Out) :
  forall depth,
    march_loop steps orig dir models depth o = PrimitiveHit h ->
    exists model t,
      In model models
      /\ scene_sdf (orig +^ dir *^ t) models
         = (sdf model (orig +^ dir *^ t), Some model)
      /\ (sdf model (orig +^ dir *^ t) <? EPSILON) = true
      /\ (sdf model (orig +^ dir *^ t) <? F32.zero) = false
      /\ out_hit h = orig +^ dir *^ (t + sdf model (orig +^ dir *^ t))
      /\ out_material h = get_material model
      /\ out_N h = match try_get_normal model (out_hit h) with
                   | Some n => n
                   | None => out_N o
                   end.
Proof.
  induction steps as [|steps IH]; intros depth; [discriminate|].
  cbn [march_loop].
  pose proof (scene_sdf_correct (orig +^ dir *^ depth) models) as Inv.
  unfold scene_sdf_inv in Inv.
  destruct (scene_sdf (orig +^ dir *^ depth) models) as [dist [model|]] eqn:E;
    [|discriminate].
  cbn [fst snd] in Inv. destruct Inv as (Hin & Hd & Hc & _).
  destruct (dist <? EPSILON) eqn:Hclose; [|apply IH].
  intros H. injection H as <-. exists model, depth. subst dist.
  unfold candidate in Hc. apply andb_prop in Hc as [Hneg _].
  apply negb_true_iff in Hneg. cbn [out_hit out_material out_N].
  repeat split; assumption.
Qed.

(** X6.  When [ray_marching] stops at a primitive it reports a hit, the
    primitive is one of the scene and the nearest candidate at the last
    sample, its distance there is below [EPSILON] and not negative, the hit
    point lies that distance further along the ray, and the material is the
    primitive's own with nothing kept from the caller's; the normal is the
    primitive's, or the caller's when [try_get_normal] fails. *)
Theorem ray_marching_primitive_hit (orig dir : Vec3f)
    (models : list sdf_model) (o h : Out) :
  march_loop MAX_MARCHING_STEPS orig dir models EPSILON o = PrimitiveHit h ->
  ray_marching orig dir models o = (true, h)
  /\ exists model t,
      In model models
      /\ scene_sdf (orig +^ dir *^ t) models
         = (sdf model (orig +^ dir *^ t), Some model)
      /\ (sdf model (orig +^ dir *^ t) <? EPSILON) = true
      /\ (sdf model (orig +^ dir *^ t) <? F32.zero) = false
      /\ out_hit h = orig +^ dir *^ (t + sdf model (orig +^ dir *^ t))
      /\ out_material h = get_material model
      /\ out_N h = match try_get_normal model (out_hit h) with
                   | Some n => n
                   | None => out_N o
                   end.
Proof.
  intros H. split.
  - unfold ray_marching. rewrite H. reflexivity.
  - exact (march_loop_hit _ _ _ _ _ _ _ H).
Qed.

Lemma march_loop_hit_any_out (steps : nat) (orig dir : Vec3f)
    (models : list sdf_model) (o o' h : Out) :
  forall depth,
    march_loop steps orig dir models depth o = PrimitiveHit h ->
    exists h',
      march_loop steps orig dir models depth o' = PrimitiveHit h'
      /\ out_hit h' = out_hit h /\ out_material h' = out_material h.
Proof.
  induction steps as [|steps IH]; intros depth; [discriminate|].
  cbn [march_loop].
  destruct (scene_sdf (orig +^ dir *^ depth) models) as [dist [model|]];
    [|discriminate].
  destruct (dist <? EPSILON); [|apply IH].
  intros H. injection H as <-. eexists. split; [reflexivity|].
  split; reflexivity.
Qed.

(** X7.  Neither the verdict of [ray_marching] nor, on a hit, the hit point
    and the diffuse colour depend on what the three reference parameters
    held before the call. *)
Theorem ray_marching_ignores_prior_outputs (orig dir : Vec3f)
    (models : list sdf_model) (o o' : Out) :
  fst (ray_marching orig dir models o) = fst (ray_marching orig dir models o')
  /\ (fst (ray_marching orig dir models o) = true ->
      out_hit (snd (ray_marching orig dir models o))
      = out_hit (snd (ray_marching orig dir models o'))
      /\ diffuse_color (out_material (snd (ray_marching orig dir models o)))
         = diffuse_color
             (out_material (snd (ray_marching orig dir models o')))).
Proof.
  destruct (march_loop MAX_MARCHING_STEPS orig dir models EPSILON o)
    as [h| |] eqn:E.
  - destruct (march_loop_hit_any_out _ _ _ _ o o' h _ E) as (h' & E' & Hh & Hm).
    unfold ray_marching. rewrite E, E'. cbn [fst snd].
    split; [reflexivity|]. intros _. rewrite Hh, Hm. split; reflexivity.
  - rewrite (ray_marching_fallback orig dir models o (or_intror E)).
    rewrite (ray_marching_fallback orig dir models o'
               (march_loop_no_hit_any_out _ _ _ _ _ o o' (or_intror E))).
    destruct (plane_hit_valid orig dir); cbn [fst snd];
      [split; [reflexivity|intros _; split; reflexivity]|].
    split; [reflexivity|discriminate].
  - rewrite (ray_marching_fallback orig dir models o (or_introl E)).
    rewrite (ray_marching_fallback orig dir models o'
               (march_loop_no_hit_any_out _ _ _ _ _ o o' (or_introl E))).
    destruct (plane_hit_valid orig dir); cbn [fst snd];
      [split; [reflexivity|intros _; split; reflexivity]|].
    split; [reflexivity|discriminate].
Qed.

(** ** Signs of products, quotients and square roots *)

Lemma mul_sign_clear (a b : F32.float) :
  sign_clear a = true -> sign_clear b = true -> sign_clear (a * b) = true.
Proof.
  destruct a as [sa|[]| |[] ma ea]; destruct b as [sb|[]| |[] mb eb];
    try discriminate; intros _ _; try reflexivity.
  apply binary_round_aux_sign_clear.
Qed.

Lemma div_two_sign_clear (a : F32.float) :
  sign_clear a = true -> sign_clear (a / F32.of_Z 2) = true.
Proof.
  replace (F32.of_Z 2) with (S754_finite false 8388608 (-22))
    by (vm_compute; reflexivity).
  destruct a as [sa|[]| |[] ma ea]; try discriminate; intros _;
    try reflexivity.
  unfold F32.div, SFdiv.
  destruct (SFdiv_core_binary _ _ _ _ _ _) as [[mz ez] lz].
  apply binary_round_aux_sign_clear.
Qed.

Lemma sqrtf_sign_clear (x : F32.float) : sign_clear (F32.sqrtf x) = true.
Proof.
  destruct x as [s|[]| |[] m e]; try reflexivity.
  unfold F32.sqrtf, SFsqrt.
  destruct (SFsqrt_core_binary _ _ _ _) as [[mz ez] lz].
  apply binary_round_aux_sign_clear.
Qed.

Lemma max_zero_sign_clear (x : F32.float) :
  sign_clear (F32.max F32.zero x) = true.
Proof.
  unfold F32.max. destruct (F32.zero <? x) eqn:H; [|reflexivity].
  destruct x as [[]|[]| |[] ? ?]; try discriminate; reflexivity.
Qed.

(** ** [fresnel], further *)

(** X8.  The coefficient [kr] that [fresnel] computes is never negative (it
    is a number that is at least zero, or NaN). *)
Theorem fresnel_not_negative (I N : Vec3f) (ior : F32.float) :
  not_negative (fresnel I N ior).
Proof.
  apply sign_clear_not_negative. unfold fresnel.
  destruct (fresnel_sint I N ior >=? F32.one); [reflexivity|].
  apply div_two_sign_clear.
  apply add_sign_clear; apply mul_self_sign_clear.
Qed.

Lemma fresnel_zero_index_entering (I N : Vec3f) :
  (fresnel_cosi I N >? F32.zero) = false ->
  fresnel I N F32.zero = F32.one \/ fresnel I N F32.zero = S754_nan.
Proof.
  intros Hcos.
  assert (Hsint : fresnel_sint I N F32.zero
                  = S754_infinity false * F32.sqrtf (fresnel_radicand_sint I N)).
  { unfold fresnel_sint, fresnel_etai, fresnel_etat. rewrite Hcos. reflexivity. }
  pose proof (sqrtf_sign_clear (fresnel_radicand_sint I N)) as Hs.
  unfold fresnel, fresnel_radicand_cost, fresnel_etai, fresnel_etat.
  rewrite Hcos, Hsint.
  destruct (F32.sqrtf (fresnel_radicand_sint I N)) as [s|[]| |[] m e];
    try discriminate; try (left; reflexivity); right;
    destruct (F32.fabsf (fresnel_cosi I N)) as [[]|[]| |[] ? ?]; reflexivity.
Qed.

(** ** Direct lighting *)

Section LightingFacts.

Variable powf : F32.float -> F32.float -> F32.float.

Lemma light_step_in_shadow (models : list sdf_model) (point N dir : Vec3f)
    (material : Material) (acc : F32.float * F32.float) (l : Light) :
  light_step powf models point N dir material acc l
  = if in_shadow models point N l then acc
    else (fst acc + intensity l
                    * F32.max F32.zero
                        (Vec.normalize (position l -^ point) `*` N),
          snd acc
          + powf (F32.max F32.zero
                    (Vec.neg (reflect (Vec.neg (Vec.normalize
                                                  (position l -^ point))) N)
                     `*` dir))
                 (specular_exponent material)
            * intensity l).
Proof.
  unfold light_step, in_shadow.
  destruct (ray_marching _ _ models fresh_out) as [shadowed s].
  reflexivity.
Qed.

(** X10.  A light that is in shadow at the point contributes nothing: the
    two intensities that the loop over the lights accumulates are those of
    the unshadowed lights alone, taken in the same order.  Whether a light
    is in shadow depends neither on the material nor on the viewing
    direction. *)
Theorem lighting_skips_shadowed (models : list sdf_model)
    (lights : list Light) (point N dir : Vec3f) (material : Material) :
  lighting powf models lights point N dir material
  = lighting powf models
      (filter (fun l => negb (in_shadow models point N l)) lights)
      point N dir material.
Proof.
  unfold lighting. generalize (F32.zero, F32.zero).
  induction lights as [|l lights IH]; intros acc; [reflexivity|].
  cbn [fold_left filter]. rewrite light_step_in_shadow.
  destruct (in_shadow models point N l) eqn:E; cbn [negb]; [apply IH|].
  cbn [fold_left]. rewrite light_step_in_shadow, E. apply IH.
Qed.

(** X11.  With light intensities that are not negative, the diffuse
    intensity that the loop over the lights accumulates is never negative;
    the same holds of the specular intensity for a [powf] that returns no
    negative number. *)
Theorem lighting_not_negative (models : list sdf_model)
    (lights : list Light) (point N dir : Vec3f) (material : Material) :
  (forall l, In l lights -> sign_clear (intensity l) = true) ->
  not_negative (fst (lighting powf models lights point N dir material))
  /\ ((forall x e, sign_clear (powf x e) = true) ->
      not_negative (snd (lighting powf models lights point N dir material))).
Proof.
  intros Hl.
  assert (H : forall acc,
             sign_clear (fst acc) = true ->
             sign_clear
               (fst (fold_left (light_step powf models point N dir material)
                       lights acc)) = true
             /\ ((forall x e, sign_clear (powf x e) = true) ->
                 sign_clear (snd acc) = true ->
                 sign_clear
                   (snd (fold_left
                           (light_step powf models point N dir material)
                           lights acc)) = true)).
  { induction lights as [|l lights IH]; intros acc Hacc; [auto|].
    cbn [fold_left]. rewrite light_step_in_shadow.
    assert (Hi : sign_clear (intensity l) = true) by (apply Hl; left; reflexivity).
    assert (Hrest : forall l', In l' lights -> sign_clear (intensity l') = true)
      by (intros l' Hin; apply Hl; right; exact Hin).
    destruct (in_shadow models point N l).
    - destruct (IH Hrest acc Hacc) as [H1 H2]. auto.
    - match goal with
      | |- context [fold_left _ lights ?a] =>
          destruct (IH Hrest a) as [H1 H2]
      end.
      + cbn [fst]. apply add_sign_clear; [exact Hacc|].
        apply mul_sign_clear; [exact Hi|apply max_zero_sign_clear].
      + split; [exact H1|]. intros Hp Hs. apply H2; [exact Hp|].
        cbn [snd]. apply add_sign_clear; [exact Hs|].
        apply mul_sign_clear; [apply Hp|exact Hi]. }
  destruct (H (F32.zero, F32.zero) eq_refl) as [H1 H2].
  split; [apply sign_clear_not_negative; exact H1|].
  intros Hp. apply sign_clear_not_negative. apply H2; [exact Hp|reflexivity].
Qed.

(** X9.  A material of refractive index 0, as [main] gives its opaque
    materials, lets no light through when it is met from outside
    ([cosi <= 0]): [kr] is 1 or NaN, the test [kr < 1] fails, no refracted
    ray is cast and the refracted colour is black. *)
Theorem cast_ray_opaque (fuel : nat) (orig dir : Vec3f)
    (models : list sdf_model) (lights : list Light) (depth : N) (o : Out) :
  (depth <= 4)%N ->
  ray_marching orig dir models fresh_out = (true, o) ->
  refractive_index (out_material o) = F32.zero ->
  (fresnel_cosi dir (out_N o) >? F32.zero) = false ->
  (fresnel dir (out_N o) (refractive_index (out_material o)) <? F32.one)
  = false
  /\ cast_ray powf (S fuel) orig dir models lights depth
     = (reflect_color <-
          cast_ray powf fuel
            (offset_origin (out_hit o) (out_N o)
               (Vec.normalize (reflect dir (out_N o))) eps_offset)
            (Vec.normalize (reflect dir (out_N o))) models lights
            (depth + 1)%N ;;
        Some (composite (out_material o)
                (fst (lighting powf models lights (out_hit o) (out_N o) dir
                        (out_material o)))
                (snd (lighting powf models lights (out_hit o) (out_N o) dir
                        (out_material o)))
                reflect_color Vec.zero))
  /\ cast_ray_calls (S fuel) orig dir models depth
     = (reflect_calls <-
          cast_ray_calls fuel
            (offset_origin (out_hit o) (out_N o)
               (Vec.normalize (reflect dir (out_N o))) eps_offset)
            (Vec.normalize (reflect dir (out_N o))) models (depth + 1)%N ;;
        Some (depth :: reflect_calls)).
Proof.
  intros Hdepth Hhit Hior Hcos.
  assert (Hkr : (fresnel dir (out_N o) (refractive_index (out_material o))
                 <? F32.one) = false).
  { rewrite Hior.
    destruct (fresnel_zero_index_entering dir (out_N o) Hcos) as [-> | ->];
      reflexivity. }
  split; [exact Hkr|]. split.
  - rewrite (cast_ray_shaded powf fuel _ _ _ _ _ o Hdepth Hhit), Hkr.
    reflexivity.
  - rewrite (cast_ray_calls_shaded fuel _ _ _ _ o Hdepth Hhit), Hkr.
    reflexivity.
Qed.

End LightingFacts.

(** ** The scene field as a union *)

(** X12.  Adding primitives to a scene never increases the distance that
    [scene_sdf] returns. *)
Theorem scene_sdf_more_primitives (point : Vec3f)
    (models models' : list sdf_model) :
  incl models models' ->
  (fst (scene_sdf point models) <? fst (scene_sdf point models')) = false.
Proof.
  intros Hincl.
  pose proof (scene_sdf_correct point models) as Inv.
  pose proof (scene_sdf_correct point models') as Inv'.
  pose proof (scene_sdf_distance_range_lemma point models') as Hr.
  unfold scene_sdf_inv in Inv, Inv'.
  destruct (scene_sdf point models) as [d [m|]];
    destruct (scene_sdf point models') as [d' [m'|]]; cbn [fst snd] in *.
  - destruct Inv as (Hin & -> & Hc & _). destruct Inv' as (_ & _ & _ & Hmin').
    apply Hmin'; [apply Hincl; exact Hin|exact Hc].
  - destruct Inv as (Hin & _ & Hc & _). destruct Inv' as (_ & Hnone).
    rewrite (Hnone m (Hincl m Hin)) in Hc. discriminate.
  - destruct Inv as (-> & _). apply Hr.
  - destruct Inv as (-> & _). destruct Inv' as (-> & _). apply ltb_irrefl.
Qed.

(** ** The degenerate normal *)

Lemma to_int_below_one (x : F32.float) :
  F32.valid x = true -> sign_clear x = true -> (x <? F32.one) = true ->
  F32.to_int x = 0%Z.
Proof.
  destruct x as [s|s| |s m e]; try discriminate; try reflexivity.
  intros V S L. destruct s; [discriminate|].
  apply valid_finite in V as (_ & D & _).
  pose proof (digits2_pos_bounds m) as [_ B].
  assert (P : (2 ^ Zpos (digits2_pos m) <= 2 ^ 24)%Z)
    by (apply Z.pow_le_mono_r; lia).
  change (2 ^ 24)%Z with 16777216%Z in P.
  change F32.one with (S754_finite false 8388608 (-23)) in L.
  unfold F32.ltb, SFltb, SFcompare in L.
  cbn [F32.to_int cond_Zopp].
  destruct (Z.compare_spec e (-23)) as [->|He|He]; try discriminate.
  - change (Pos.compare_cont Eq m 8388608) with (Pos.compare m 8388608) in L.
    destruct (Pos.compare_spec m 8388608) as [|Hm|]; try discriminate.
    rewrite Z.shiftl_div_pow2 by lia. apply Z.div_small.
    change (2 ^ (- -23))%Z with 8388608%Z. lia.
  - rewrite Z.shiftl_div_pow2 by lia. apply Z.div_small.
    assert (P' : (2 ^ 24 <= 2 ^ (- e))%Z) by (apply Z.pow_le_mono_r; lia).
    change (2 ^ 24)%Z with 16777216%Z in P'. lia.
Qed.

(** X13.  [try_get_normal] fails within one unit of the centre, not only
    within [EPSILON], because the length passes through [int]: at the
    centre of a sphere (with finite coordinates) and at every point whose
    distance from the centre is below 1 it returns [false]; wherever it
    succeeds, the distance is a number that is not below 1 and the normal
    is the normalized offset from the centre.  (The distance is taken to be
    well-formed binary32 data, as a square root is.) *)
Theorem try_get_normal_degenerate (center : Vec3f) (radius : F32.float)
    (mat : Material) :
  (vec_finite center = true ->
   try_get_normal (Sphere center radius mat) center = None)
  /\ (forall point,
         F32.valid (Vec.norm (point -^ center)) = true ->
         (Vec.norm (point -^ center) <? F32.one) = true ->
         try_get_normal (Sphere center radius mat) point = None)
  /\ forall point n,
      try_get_normal (Sphere center radius mat) point = Some n ->
      n = Vec.normalize (point -^ center)
      /\ F32.is_finite (Vec.norm (point -^ center)) = true
      /\ (F32.valid (Vec.norm (point -^ center)) = true ->
          (Vec.norm (point -^ center) <? F32.one) = false).
Proof.
  assert (Hbelow : forall point,
             F32.valid (Vec.norm (point -^ center)) = true ->
             (Vec.norm (point -^ center) <? F32.one) = true ->
             try_get_normal (Sphere center radius mat) point = None).
  { intros point V L. cbn [try_get_normal].
    rewrite (to_int_below_one _ V (sqrtf_sign_clear _) L). reflexivity. }
  split; [|split; [exact Hbelow|]].
  - intros Hfin. unfold vec_finite in Hfin.
    apply andb_prop in Hfin as [Hfin Hz]. apply andb_prop in Hfin as [Hx Hy].
    cbn [try_get_normal]. unfold Vec.sub. rewrite !sub_self by assumption.
    reflexivity.
  - intros point n H. split; [|split].
    + cbn [try_get_normal] in H.
      destruct (F32.of_Z _ <? EPSILON); [discriminate|].
      injection H as <-. reflexivity.
    + cbn [try_get_normal] in H.
      destruct (Vec.norm (point -^ center)); try reflexivity; discriminate.
    + intros V. destruct (Vec.norm (point -^ center) <? F32.one) eqn:L;
        [|reflexivity].
      rewrite (Hbelow point V L) in H. discriminate.
Qed.

(** ** The output stage of [render] *)

Lemma ltb_le_trans (c a b : F32.float) :
  F32.is_nan a = false -> F32.is_nan b = false ->
  (c <? a) = true -> (b <? a) = false -> (c <? b) = true.
Proof.
  intros Ha Hb Hca Hba.
  destruct (ltb_total a b Ha Hb) as [H|[H|[H|[Hza Hzb]]]].
  - eapply ltb_trans; eassumption.
  - rewrite H in Hba. discriminate.
  - subst b. exact Hca.
  - rewrite <- Hca. apply same_num_ltb_r. right. split; assumption.
Qed.

(** X14.  Every channel leaves the clamp of the output stage as a number of
    [[0, 1]]: a channel that is not below 1, be it an infinity or NaN,
    becomes 1, a channel that is not above 0 becomes 0, and any other
    channel is kept. *)
Theorem clamp_unit_range (x : F32.float) :
  F32.is_nan (clamp_unit x) = false
  /\ (clamp_unit x <? F32.zero) = false
  /\ (F32.one <? clamp_unit x) = false
  /\ ((x <? F32.one) = false -> clamp_unit x = F32.one)
  /\ ((x <? F32.one) = true -> (F32.zero <? x) = false ->
      clamp_unit x = F32.zero)
  /\ ((x <? F32.one) = true -> (F32.zero <? x) = true -> clamp_unit x = x).
Proof.
  unfold clamp_unit, F32.max, F32.min.
  destruct (x <? F32.one) eqn:H1.
  - destruct (F32.zero <? x) eqn:H0.
    + repeat split; try discriminate; try reflexivity.
      * destruct x; try discriminate; reflexivity.
      * apply ltb_asym; exact H0.
      * apply ltb_asym; exact H1.
    + repeat split; try discriminate; reflexivity.
  - repeat split; try discriminate; reflexivity.
Qed.

(** X15.  For a pixel without a NaN channel, the maximum that decides the
    rescaling is one of the three channels and none of them exceeds it; so
    a pixel that is left unscaled has no channel above 1. *)
Theorem channel_max_bounds (c : Vec3f) :
  F32.is_nan (vx c) = false -> F32.is_nan (vy c) = false ->
  F32.is_nan (vz c) = false ->
  (channel_max c = vx c \/ channel_max c = vy c \/ channel_max c = vz c)
  /\ ((channel_max c <? vx c) = false /\ (channel_max c <? vy c) = false
      /\ (channel_max c <? vz c) = false)
  /\ ((channel_max c >? F32.one) = false ->
      (F32.one <? vx c) = false /\ (F32.one <? vy c) = false
      /\ (F32.one <? vz c) = false).
Proof.
  intros Hx Hy Hz.
  assert (Hin : F32.is_nan (F32.max (vy c) (vz c)) = false
                /\ (F32.max (vy c) (vz c) = vy c
                    \/ F32.max (vy c) (vz c) = vz c)
                /\ (F32.max (vy c) (vz c) <? vy c) = false
                /\ (F32.max (vy c) (vz c) <? vz c) = false).
  { unfold F32.max. destruct (vy c <? vz c) eqn:E.
    - repeat split; auto. + apply ltb_asym; exact E. + apply ltb_irrefl.
    - repeat split; auto. apply ltb_irrefl. }
  destruct Hin as (Hm & Hmem & Hmy & Hmz).
  assert (Hb : (channel_max c <? vx c) = false
               /\ (channel_max c <? vy c) = false
               /\ (channel_max c <? vz c) = false
               /\ F32.is_nan (channel_max c) = false
               /\ (channel_max c = vx c \/ channel_max c = vy c
                   \/ channel_max c = vz c)).
  { assert (Hcm : channel_max c
                  = if vx c <? F32.max (vy c) (vz c)
                    then F32.max (vy c) (vz c) else vx c) by reflexivity.
    rewrite Hcm. clear Hcm.
    destruct (vx c <? F32.max (vy c) (vz c)) eqn:E.
    - split; [apply ltb_asym; exact E|]. split; [exact Hmy|].
      split; [exact Hmz|]. split; [exact Hm|].
      destruct Hmem as [-> | ->]; auto.
    - split; [apply ltb_irrefl|]. split; [|split; [|auto]].
      + destruct (vx c <? vy c) eqn:E1; [|reflexivity].
        rewrite (ltb_le_trans _ _ _ Hy Hm E1 Hmy) in E. discriminate.
      + destruct (vx c <? vz c) eqn:E1; [|reflexivity].
        rewrite (ltb_le_trans _ _ _ Hz Hm E1 Hmz) in E. discriminate. }
  destruct Hb as (Bx & By & Bz & Hn & Hmem').
  split; [exact Hmem'|]. split; [auto|].
  rewrite gtb_ltb. intros H1.
  assert (Hle : forall v, F32.is_nan v = false ->
                          (channel_max c <? v) = false ->
                          (F32.one <? v) = false).
  { intros v Hv Hcv. destruct (F32.one <? v) eqn:E; [|reflexivity].
    rewrite (ltb_le_trans _ _ _ Hv Hn E Hcv) in H1. discriminate. }
  auto.
Qed.

(** ** [Sphere::ray_intersect] *)

(** X16.  [ray_intersect] never reports a negative distance, and it reports
    no intersection at all when the centre of the sphere lies behind the
    origin of the ray ([tca < 0]), even for an origin inside the sphere;
    what it reports is the near root [tca - thc], or the far root
    [tca + thc] when the near one is negative. *)
Theorem ray_intersect_result (center : Vec3f) (radius : F32.float)
    (orig dir : Vec3f) :
  let tca := (center -^ orig) `*` dir in
  let thc := F32.sqrtf (ray_intersect_radicand center radius orig dir) in
  ((tca <? F32.zero) = true -> ray_intersect center radius orig dir = None)
  /\ forall t0,
      ray_intersect center radius orig dir = Some t0 ->
      not_negative t0
      /\ (tca <? F32.zero) = false
      /\ ((t0 = tca - thc)
          \/ ((tca - thc <? F32.zero) = true /\ t0 = tca + thc)).
Proof.
  cbv zeta. unfold ray_intersect. split.
  - intros ->. reflexivity.
  - intros t0.
    destruct ((center -^ orig) `*` dir <? F32.zero); [discriminate|].
    destruct (_ >? radius * radius); [discriminate|].
    destruct (_ - _ <? F32.zero) eqn:E1.
    + destruct (_ + _ <? F32.zero) eqn:E2; [discriminate|].
      intros H. injection H as <-. unfold not_negative. auto.
    + rewrite E1. intros H. injection H as <-. unfold not_negative. auto.
Qed.

(** ** Composition of the shader *)

Section ShaderComposition.

Variable powf : F32.float -> F32.float -> F32.float.

(** X17.  At depth 4, the last level that is shaded, the secondary rays
    are not traced any further: the reflected colour is the background
    colour, and so is the refracted colour when a refracted ray is cast. *)
Theorem cast_ray_deepest_level (fuel : nat) (orig dir : Vec3f)
    (models : list sdf_model) (lights : list Light) (o : Out) :
  (3 <= fuel)%nat ->
  ray_marching orig dir models fresh_out = (true, o) ->
  cast_ray powf fuel orig dir models lights 4%N
  = Some (composite (out_material o)
            (fst (lighting powf models lights (out_hit o) (out_N o) dir
                    (out_material o)))
            (snd (lighting powf models lights (out_hit o) (out_N o) dir
                    (out_material o)))
            background
            (if fresnel dir (out_N o) (refractive_index (out_material o))
                <? F32.one
             then background else Vec.zero)).
Proof.
  intros Hfuel Hhit. destruct fuel as [|[|[|fuel]]]; try lia.
  rewrite (cast_ray_shaded powf _ _ _ _ _ _ o (N.le_refl 4) Hhit).
  rewrite !(cast_ray_background powf (S fuel)) by (left; reflexivity).
  destruct (fresnel dir (out_N o) (refractive_index (out_material o))
            <? F32.one) eqn:Hkr; [|reflexivity].
  destruct (refract_returns_when_called fuel _ _ _ Hkr) as [r ->].
  reflexivity.
Qed.

End ShaderComposition.

(** X18.  A shaded hit always casts the reflected ray, whatever the
    material (also with a reflection weight [albedo[2]] of 0) and whether or
    not a refracted ray is cast: the trace of invocations is the hit itself,
    then the trace of the refracted ray, which is empty when the test
    [kr < 1] fails, then the whole trace of the reflected ray, which starts
    with an invocation at the next depth. *)
Theorem cast_ray_always_reflects (fuel : nat) (orig dir : Vec3f)
    (models : list sdf_model) (depth : N) (o : Out) :
  (depth <= 4)%N -> (7 <= fuel)%nat ->
  ray_marching orig dir models fresh_out = (true, o) ->
  exists calls refract_calls reflect_calls,
    cast_ray_calls fuel orig dir models depth = Some calls
    /\ cast_ray_calls (Nat.pred fuel)
         (offset_origin (out_hit o) (out_N o)
            (Vec.normalize (reflect dir (out_N o))) eps_offset)
         (Vec.normalize (reflect dir (out_N o))) models (depth + 1)%N
       = Some reflect_calls
    /\ calls = depth :: refract_calls ++ reflect_calls
    /\ hd_error reflect_calls = Some (depth + 1)%N
    /\ ((fresnel dir (out_N o) (refractive_index (out_material o))
         <? F32.one) = false -> refract_calls = []).
Proof.
  intros Hdepth Hfuel Hhit.
  destruct fuel as [|fuel]; [lia|]. cbn [Nat.pred].
  rewrite (cast_ray_calls_shaded fuel _ _ _ _ o Hdepth Hhit).
  assert (Hsub : forall orig' dir',
             exists l, cast_ray_calls fuel orig' dir' models (depth + 1)%N
                       = Some l
                       /\ hd_error l = Some (depth + 1)%N).
  { intros orig' dir'.
    destruct (cast_ray_calls_bounded 4 fuel orig' dir' models (depth + 1)%N)
      as (l & E & _ & _); try lia.
    exists l. split; [exact E|].
    destruct fuel as [|fuel']; [discriminate|].
    destruct (4 <? depth + 1)%N eqn:Hd.
    - rewrite cast_ray_calls_leaf in E by (left; apply N.ltb_lt; exact Hd).
      injection E as <-. reflexivity.
    - apply N.ltb_ge in Hd.
      destruct (ray_marching orig' dir' models fresh_out) as [[] o'] eqn:Hh.
      + rewrite (cast_ray_calls_shaded fuel' _ _ _ _ o' Hd Hh) in E.
        destruct (if fresnel dir' (out_N o') _ <? F32.one then _ else _)
          as [l1|]; [|discriminate].
        destruct (cast_ray_calls fuel' _ _ models _) as [l2|];
          [|discriminate].
        injection E as <-. reflexivity.
      + rewrite cast_ray_calls_leaf in E by (right; rewrite Hh; reflexivity).
        injection E as <-. reflexivity. }
  destruct (Hsub (offset_origin (out_hit o) (out_N o)
                    (Vec.normalize (reflect dir (out_N o))) eps_offset)
                 (Vec.normalize (reflect dir (out_N o))))
    as (l2 & -> & Hhd).
  destruct (fresnel dir (out_N o) (refractive_index (out_material o))
            <? F32.one) eqn:Hkr.
  - destruct fuel as [|[|fuel']]; try lia.
    destruct (refract_returns_when_called fuel' _ _ _ Hkr) as [r ->].
    destruct (Hsub (offset_origin (out_hit o) (out_N o) (Vec.normalize r)
                      EPSILON) (Vec.normalize r)) as (l1 & -> & _).
    exists (depth :: l1 ++ l2), l1, l2.
    repeat split; [exact Hhd|discriminate].
  - exists (depth :: [] ++ l2), [], l2.
    repeat split. exact Hhd.
Qed.

(** ** The framebuffer *)

(** X19.  The loop of [render] writes inside the framebuffer of
    [width*height] pixels and writes every slot exactly once: the slot
    [i + j*width] of a pixel lies below [width*height], two different
    pixels have different slots, and every slot belongs to a pixel. *)
Theorem pixel_index_bijective :
  (forall i j, (i < width)%N -> (j < height)%N ->
               (pixel_index i j < width * height)%N)
  /\ (forall i j i' j',
         (i < width)%N -> (j < height)%N -> (i' < width)%N ->
         (j' < height)%N ->
         pixel_index i j = pixel_index i' j' -> i = i' /\ j = j')
  /\ (forall k, (k < width * height)%N ->
                exists i j, (i < width)%N /\ (j < height)%N
                            /\ pixel_index i j = k).
Proof.
  assert (Hsmall : forall i j, (i < width)%N -> (j < height)%N ->
                               pixel_index i j = (i + j * width)%N).
  { intros i j Hi Hj. unfold pixel_index. apply N.mod_small.
    unfold width, height in *.
    apply N.lt_le_trans with (m := (1024 * 769)%N); [lia|].
    vm_compute. discriminate. }
  split; [|split].
  - intros i j Hi Hj. rewrite (Hsmall i j Hi Hj).
    unfold width, height in *. lia.
  - intros i j i' j' Hi Hj Hi' Hj'.
    rewrite (Hsmall i j Hi Hj), (Hsmall i' j' Hi' Hj').
    unfold width, height in *. lia.
  - intros k Hk. exists (k mod width)%N, (k / width)%N.
    assert (Hw : width <> 0%N) by discriminate.
    pose proof (N.mod_lt k width Hw) as Hm.
    pose proof (N.div_mod k width Hw) as Hdm.
    assert (Hq : (k / width < height)%N).
    { apply N.Div0.div_lt_upper_bound. rewrite N.mul_comm. exact Hk. }
    split; [exact Hm|]. split; [exact Hq|].
    rewrite (Hsmall _ _ Hm Hq). lia.
Qed.

(** ** [refract] on a dot product that is not a number *)

Lemma refract_cosi_nan (I N : Vec3f) :
  F32.is_nan (I `*` N) = true -> (refract_cosi I N <? F32.zero) = true.
Proof.
  unfold refract_cosi. destruct (I `*` N); try discriminate. reflexivity.
Qed.

(** X20.  When the dot product of direction and normal is NaN, [refract]
    asks for the swap again and again and never returns; [cast_ray] does
    not call it then, because [fresnel] yields NaN and the test [kr < 1]
    fails. *)
Theorem refract_nan_never_returns (I N : Vec3f) :
  F32.is_nan (I `*` N) = true ->
  (forall fuel eta_t eta_i, refract fuel I N eta_t eta_i = None)
  /\ forall ior, (fresnel I N ior <? F32.one) = false.
Proof.
  intros Hnan. split.
  - intros fuel. revert N Hnan.
    induction fuel as [|fuel IH]; intros N Hnan eta_t eta_i; [reflexivity|].
    cbn [refract]. rewrite (refract_cosi_nan I N Hnan). apply IH.
    rewrite (same_num_is_nan _ _ (dot_neg_r I N)), is_nan_neg. exact Hnan.
  - intros ior. rewrite (fresnel_nan I N ior Hnan). reflexivity.
Qed.

(** ** Examples for the further properties *)

Lemma offset_origin_flipped_normal_witness :
  offset_origin Vec.zero (Vec.neg (vec_of_Z 0 0 1)) (vec_of_Z 0 0 (-1)) EPSILON
  = offset_origin Vec.zero (vec_of_Z 0 0 1) (vec_of_Z 0 0 (-1)) EPSILON.
Proof.
  apply offset_origin_flipped_normal. left. vm_compute; reflexivity.
Defined.

Lemma scene_sdf_distance_order_witness :
  same_num (fst (scene_sdf Vec.zero [far_sphere; grazed_sphere]))
           (fst (scene_sdf Vec.zero [grazed_sphere; far_sphere])).
Proof. apply scene_sdf_distance_order. apply perm_swap. Defined.

Lemma scene_sdf_more_primitives_witness :
  (fst (scene_sdf Vec.zero [far_sphere])
   <? fst (scene_sdf Vec.zero [grazed_sphere; far_sphere])) = false.
Proof.
  apply scene_sdf_more_primitives. intros m [<-|[]]. right; left; reflexivity.
Defined.

Lemma ray_marching_from_inside_witness :
  ray_marching (vec_of_Z 0 (-1) (-10)) (vec_of_Z 0 0 1) [grazed_sphere]
               fresh_out
  = ray_marching (vec_of_Z 0 (-1) (-10)) (vec_of_Z 0 0 1) [] fresh_out.
Proof.
  apply (proj2 (ray_marching_from_inside (vec_of_Z 0 (-1) (-10))
                  (vec_of_Z 0 0 1) [grazed_sphere] fresh_out
                  ltac:(intros m [<-|[]]; vm_compute; reflexivity))).
Defined.

Lemma ray_marching_primitive_hit_witness :
  ray_marching Vec.zero head_on_dir [head_on_sphere] fresh_out
  = (true, snd (ray_marching Vec.zero head_on_dir [head_on_sphere] fresh_out)).
Proof.
  apply (proj1 (ray_marching_primitive_hit Vec.zero head_on_dir
                  [head_on_sphere] fresh_out
                  (snd (ray_marching Vec.zero head_on_dir [head_on_sphere] fresh_out))
                  ltac:(vm_compute; reflexivity))).
Defined.

Lemma cast_ray_opaque_witness :
  (fresnel head_on_dir
     (out_N (snd (ray_marching Vec.zero head_on_dir [head_on_sphere]
                               fresh_out)))
     (refractive_index
        (out_material (snd (ray_marching Vec.zero head_on_dir
                                         [head_on_sphere] fresh_out))))
   <? F32.one) = false.
Proof.
  apply (proj1 (cast_ray_opaque powf_whole 6 Vec.zero head_on_dir
                  [head_on_sphere] [first_light] 0%N
                  (snd (ray_marching Vec.zero head_on_dir [head_on_sphere] fresh_out))
                  ltac:(vm_compute; discriminate)
                  ltac:(vm_compute; reflexivity)
                  ltac:(vm_compute; reflexivity)
                  ltac:(vm_compute; reflexivity))).
Defined.

Lemma lighting_not_negative_witness :
  not_negative
    (fst (lighting powf_whole [head_on_sphere] [first_light] Vec.zero
            (vec_of_Z 0 1 0) (vec_of_Z 0 0 (-1)) mirror)).
Proof.
  apply (proj1 (lighting_not_negative powf_whole [head_on_sphere]
                  [first_light] Vec.zero (vec_of_Z 0 1 0)
                  (vec_of_Z 0 0 (-1)) mirror
                  ltac:(intros l [<-|[]]; vm_compute; reflexivity))).
Defined.

Lemma try_get_normal_degenerate_witness :
  try_get_normal (Sphere (vec_of_Z 6 0 (-8)) (F32.lit 1 2) mirror)
    (mkVec3f (F32.of_Z 6) (F32.lit 1 2) (F32.of_Z (-8))) = None.
Proof.
  apply (proj1 (proj2 (try_get_normal_degenerate (vec_of_Z 6 0 (-8))
                         (F32.lit 1 2) mirror))); vm_compute; reflexivity.
Defined.

Lemma channel_max_bounds_witness :
  channel_max (vec_of_Z 3 1 0) = F32.of_Z 3
  /\ (channel_max (vec_of_Z 3 1 0) <? vy (vec_of_Z 3 1 0)) = false.
Proof.
  destruct (channel_max_bounds (vec_of_Z 3 1 0) eq_refl eq_refl eq_refl)
    as (_ & (_ & H & _) & _).
  split; [vm_compute; reflexivity|exact H].
Defined.

Lemma ray_intersect_result_witness :
  ray_intersect (vec_of_Z 6 0 (-8)) (F32.of_Z 4) Vec.zero
                (Vec.neg head_on_dir) = None.
Proof.
  apply (proj1 (ray_intersect_result (vec_of_Z 6 0 (-8)) (F32.of_Z 4)
                  Vec.zero (Vec.neg head_on_dir))).
  vm_compute; reflexivity.
Defined.

Lemma cast_ray_deepest_level_witness :
  exists c,
    cast_ray powf_whole 3 Vec.zero head_on_dir [head_on_sphere] [first_light]
             4%N = Some c.
Proof.
  eexists.
  apply (cast_ray_deepest_level powf_whole 3 Vec.zero head_on_dir
           [head_on_sphere] [first_light]
           (snd (ray_marching Vec.zero head_on_dir [head_on_sphere] fresh_out)) (le_n 3)).
  vm_compute; reflexivity.
Defined.

Lemma cast_ray_always_reflects_witness :
  exists calls refract_calls reflect_calls,
    cast_ray_calls 7 Vec.zero head_on_dir [head_on_sphere] 0%N = Some calls
    /\ calls = 0%N :: refract_calls ++ reflect_calls
    /\ hd_error reflect_calls = Some 1%N.
Proof.
  destruct (cast_ray_always_reflects 7 Vec.zero head_on_dir [head_on_sphere]
              0%N
              (snd (ray_marching Vec.zero head_on_dir [head_on_sphere]
                      fresh_out))
              ltac:(vm_compute; discriminate) (le_n 7)
              ltac:(vm_compute; reflexivity))
    as (calls & l1 & l2 & E & _ & Hc & Hhd & _).
  exists calls, l1, l2. split; [exact E|]. split; [exact Hc|exact Hhd].
Defined.

Lemma refract_nan_never_returns_witness :
  refract 100 (mkVec3f S754_nan F32.zero F32.zero) (vec_of_Z 0 0 1)
          (F32.lit 3 2) F32.one = None.
Proof.
  apply (proj1 (refract_nan_never_returns
                  (mkVec3f S754_nan F32.zero F32.zero) (vec_of_Z 0 0 1)
                  eq_refl)).
Defined.

Lemma pixel_index_bijective_witness :
  (pixel_index 1023 767 < width * height)%N.
Proof.
  apply (proj1 pixel_index_bijective); reflexivity.
Defined.

(** ** Ties in the scene field *)

Lemma scene_sdf_step_first_nearest (point : Vec3f) (seen : list sdf_model)
    (r : F32.float * option sdf_model) (m : sdf_model) :
  scene_sdf_inv point seen r -> first_nearest point seen r ->
  first_nearest point (seen ++ [m]) (scene_sdf_step point r m).
Proof.
  destruct r as [d hm].
  unfold scene_sdf_inv, first_nearest, scene_sdf_step.
  cbn [fst snd]. rewrite gtb_ltb. intros Inv Hfirst.
  destruct (sdf m point <? F32.zero) eqn:Hneg; cbn [fst snd].
  - (* skipped *)
    destruct hm as [h|]; [|exact I].
    destruct Hfirst as (before & after & -> & Hd & Hb & Ha).
    exists before, (after ++ [m]). rewrite <- app_assoc. cbn [app].
    repeat split; auto.
    intros m' [Hm'|[<-|[]]]%in_app_or Hc'; auto.
    unfold candidate in Hc'. rewrite Hneg in Hc'. discriminate.
  - destruct (sdf m point <? d) eqn:Hlt; cbn [fst snd].
    + (* a new minimum: everything seen before is strictly farther *)
      exists seen, []. split; [reflexivity|]. split; [reflexivity|].
      split; [|intros m' []].
      intros m' Hin' Hc'.
      assert (Hge : (sdf m' point <? d) = false).
      { destruct hm as [h|].
        - destruct Inv as (_ & _ & _ & Hmin). apply Hmin; assumption.
        - destruct Inv as (_ & Hnone). rewrite (Hnone m' Hin') in Hc'.
          discriminate. }
      assert (Hdn : F32.is_nan d = false).
      { destruct hm as [h|].
        - destruct Inv as (_ & -> & Hc & _). apply candidate_not_nan; exact Hc.
        - destruct Inv as (-> & _). reflexivity. }
      exact (ltb_le_trans _ _ _ Hdn (candidate_not_nan _ _ Hc') Hlt Hge).
    + (* kept *)
      destruct hm as [h|]; [|exact I].
      destruct Hfirst as (before & after & -> & Hd & Hb & Ha).
      exists before, (after ++ [m]). rewrite <- app_assoc. cbn [app].
      repeat split; auto.
      intros m' [Hm'|[<-|[]]]%in_app_or Hc'; auto.
Qed.

(** X21.  Of several primitives at the least distance, [scene_sdf] keeps
    the one that comes first in the list: every candidate listed before the
    hit model is strictly farther, and no candidate listed after it is
    nearer. *)
Theorem scene_sdf_first_wins (point : Vec3f) (models : list sdf_model)
    (d : F32.float) (m : sdf_model) :
  scene_sdf point models = (d, Some m) ->
  exists before after,
    models = before ++ m :: after
    /\ d = sdf m point
    /\ (forall m', In m' before -> candidate point m' = true ->
                   (d <? sdf m' point) = true)
    /\ (forall m', In m' after -> candidate point m' = true ->
                   (sdf m' point <? d) = false).
Proof.
  assert (H : first_nearest point models (scene_sdf point models)).
  { induction models as [|m0 models0 IH] using rev_ind; [exact I|].
    rewrite scene_sdf_snoc.
    apply scene_sdf_step_first_nearest; [apply scene_sdf_correct|exact IH]. }
  intros E. rewrite E in H. exact H.
Qed.

Lemma scene_sdf_first_wins_witness :
  exists before after,
    [grazed_sphere; far_sphere; grazed_sphere]
    = before ++ grazed_sphere :: after
    /\ (forall m', In m' before -> candidate Vec.zero m' = true ->
                   (fst (scene_sdf Vec.zero
                           [grazed_sphere; far_sphere; grazed_sphere])
                    <? sdf m' Vec.zero) = true).
Proof.
  destruct (scene_sdf_first_wins Vec.zero
              [grazed_sphere; far_sphere; grazed_sphere]
              (fst (scene_sdf Vec.zero
                      [grazed_sphere; far_sphere; grazed_sphere]))
              grazed_sphere ltac:(vm_compute; reflexivity))
    as (before & after & E & _ & Hb & _).
  exists before, after. split; [exact E|exact Hb].
Defined.

(** ** Tone mapping *)

Lemma clamp_unit_cases (x : F32.float) :
  ((x <? F32.one) = false /\ clamp_unit x = F32.one)
  \/ ((x <? F32.one) = true /\ (F32.zero <? x) = false
      /\ clamp_unit x = F32.zero)
  \/ ((x <? F32.one) = true /\ (F32.zero <? x) = true /\ clamp_unit x = x).
Proof.
  unfold clamp_unit, F32.max, F32.min.
  destruct (x <? F32.one) eqn:H1; [|left; split; reflexivity].
  right. destruct (F32.zero <? x) eqn:H0; [right|left]; repeat split.
Qed.

Lemma same_data_eq (x y : F32.float) : same_data x y = true -> x = y.
Proof.
  destruct x as [s|s| |s m e], y as [s'|s'| |s' m' e']; cbn [same_data];
    try discriminate; try reflexivity.
  - intros H. apply Bool.eqb_prop in H. congruence.
  - intros H. apply Bool.eqb_prop in H. congruence.
  - intros H. apply andb_prop in H as [H He]. apply andb_prop in H as [Hs Hm].
    apply Bool.eqb_prop in Hs. apply Pos.eqb_eq in Hm. apply Z.eqb_eq in He.
    congruence.
Qed.

Lemma pow2_scaled_to_one_all (k : Z) :
  (1 <= k <= 127)%Z -> pow2_scaled_to_one k = true.
Proof.
  intros Hk.
  assert (Hall : forallb pow2_scaled_to_one (map Z.of_nat (seq 1 127)) = true)
    by (vm_compute; reflexivity).
  rewrite forallb_forall in Hall. apply Hall.
  apply in_map_iff. exists (Z.to_nat k). split; [lia|].
  apply in_seq. lia.
Qed.

(** C8 (as amended).  A pixel whose largest channel is not above 1 (or is
    NaN) is not rescaled; otherwise all three channels are multiplied by the
    one factor [1. / max], taken in double precision.  Whatever the
    operator of [geometry.h] does with it, every channel is then clamped to
    a number of [[0, 1]] and written as a byte from 0 to 255: 255 for a
    channel that is not below 1, 0 for a channel that is not above 0.  A
    channel that holds a maximum [2^k] is scaled to exactly 1 under both
    readings of the operator; for other maxima the products are rounded,
    and neither a maximum of exactly 1 nor unchanged ratios are promised. *)
Theorem tone_map_scale_then_clamp
    (scale_by_double : Vec3f -> F64.double -> Vec3f) (c : Vec3f) :
  ((channel_max c >? F32.one) = false -> tone_scale scale_by_double c = c)
  /\ ((channel_max c >? F32.one) = true ->
      tone_scale scale_by_double c
      = scale_by_double c
          (F64.div (F64.of_Z 1) (F64.of_float (channel_max c))))
  /\ (forall x,
         F32.is_nan (clamp_unit x) = false
         /\ (clamp_unit x <? F32.zero) = false
         /\ (F32.one <? clamp_unit x) = false
         /\ (0 <= quantize x <= 255)%Z
         /\ ((x <? F32.one) = false -> quantize x = 255%Z)
         /\ ((x <? F32.one) = true -> (F32.zero <? x) = false ->
             quantize x = 0%Z))
  /\ (forall k y z,
         (1 <= k <= 127)%Z ->
         let m := F32.of_Z (2 ^ k) in
         let r := F64.div (F64.of_Z 1) (F64.of_float m) in
         vx (scale_narrow (mkVec3f m y z) r) = F32.one
         /\ vx (scale_wide (mkVec3f m y z) r) = F32.one).
Proof.
  split; [|split; [|split]].
  - intros H. unfold tone_scale. rewrite H. reflexivity.
  - intros H. unfold tone_scale. rewrite H. reflexivity.
  - intros x.
    assert (Hq : (0 <= quantize x <= 255)%Z).
    { unfold quantize.
      pose proof (Z.mod_pos_bound
                    (F32.to_int (F32.of_Z 255 * clamp_unit x)) 256
                    ltac:(lia)).
      lia. }
    destruct (clamp_unit_cases x) as [[H1 E]|[(H1 & H0 & E)|(H1 & H0 & E)]].
    + split; [rewrite E; reflexivity|]. split; [rewrite E; reflexivity|].
      split; [rewrite E; reflexivity|]. split; [exact Hq|].
      split; [intros _; unfold quantize; rewrite E; reflexivity|].
      intros H. rewrite H in H1. discriminate.
    + split; [rewrite E; reflexivity|]. split; [rewrite E; reflexivity|].
      split; [rewrite E; reflexivity|]. split; [exact Hq|].
      split; [intros H; rewrite H in H1; discriminate|].
      intros _ _. unfold quantize. rewrite E. reflexivity.
    + rewrite E.
      split; [destruct x; try discriminate; reflexivity|].
      split; [apply ltb_asym; exact H0|].
      split; [apply ltb_asym; exact H1|]. split; [exact Hq|].
      split; [intros H; rewrite H in H1; discriminate|].
      intros _ H. rewrite H in H0. discriminate.
  - intros k y z Hk m r.
    pose proof (pow2_scaled_to_one_all k Hk) as H.
    unfold pow2_scaled_to_one in H. fold m in H. fold r in H.
    change (vx (scale_narrow (mkVec3f m y z) r))
      with (vx (scale_narrow (mkVec3f m F32.zero F32.zero) r)).
    change (vx (scale_wide (mkVec3f m y z) r))
      with (vx (scale_wide (mkVec3f m F32.zero F32.zero) r)).
    apply andb_prop in H as [Hn Hw].
    split; apply same_data_eq; assumption.
Qed.

Lemma tone_map_scale_then_clamp_witness :
  tone_scale scale_wide (vec_of_Z 4 2 1)
  = mkVec3f F32.one (F32.lit 1 2) (F32.lit 1 4)
  /\ output_bytes scale_wide (vec_of_Z 4 2 1) = (255, 127, 63)%Z.
Proof.
  split; [|vm_compute; reflexivity].
  rewrite (proj1 (proj2 (tone_map_scale_then_clamp scale_wide
                           (vec_of_Z 4 2 1))))
    by (vm_compute; reflexivity).
  vm_compute; reflexivity.
Defined.

(** C8 (as stated) fails.  The pixel [(41, 1, 0)] is rescaled.  With the
    factor narrowed to binary32 first, the largest channel becomes
    [16777215 * 2^-24], the number next below 1, and is written as the
    byte 254; with the product taken in double precision it becomes 1.
    Under either reading the ratio of the first two channels changes:
    [1/41] has no binary32 value. *)
Lemma tone_map_not_exact :
  (channel_max pixel_41 >? F32.one) = true
  /\ channel_max (tone_scale scale_narrow pixel_41)
     = S754_finite false 16777215 (-24)
  /\ (channel_max (tone_scale scale_narrow pixel_41) <? F32.one) = true
  /\ output_bytes scale_narrow pixel_41 = (254, 6, 0)%Z
  /\ channel_max (tone_scale scale_wide pixel_41) = F32.one
  /\ same_ratio (vx pixel_41) (vy pixel_41)
       (vx (tone_scale scale_narrow pixel_41))
       (vy (tone_scale scale_narrow pixel_41)) = false
  /\ same_ratio (vx pixel_41) (vy pixel_41)
       (vx (tone_scale scale_wide pixel_41))
       (vy (tone_scale scale_wide pixel_41)) = false
  /\ same_ratio (F32.of_Z 4) (F32.of_Z 2) F32.one (F32.lit 1 2) = true.
Proof. vm_compute. repeat split. Qed.
